(** * Progress tracking of the course player (src/app/page.tsx)

    A shallow embedding of the playback-progress logic of the
    [YouTubeCoursePlayer] component: chapter resolution from the player
    clock, the automatic completion of earlier chapters on a forward
    advance, the manual completion toggle, the read of a video's record
    and the load of the persisted store.

    Modelling choices.
    - Chapter indices, watch time and time stamps are integral JavaScript
      numbers; they are modelled as [Z] (exact inside the safe integer
      range).
    - The percentage is the result of a division, a multiplication and
      [Math.round] on IEEE 754 binary64 numbers; it is modelled with the
      executable binary64 operations of [SpecFloat].
    - The progress object is a finite map from video identifiers to
      records ([gmap string VideoProgress]): its own properties, the
      keys a video identifier can be.
    - The player clock is a finite number of seconds, a rational [Q];
      its comparison with an integral offset is exact.
    - [Date.now()] is an argument [now] of the operations that call it.
    - A function of the component reads the component state visible in
      its closure; that state is the record [State]. *)

From Stdlib Require Import ZArith QArith Lia Ascii String.
From Stdlib Require Import Floats.SpecFloat.
From stdpp Require Import gmap strings list.
From stdpp Require Import pretty.

Local Open Scope Z_scope.

(** ** JavaScript numbers (binary64) *)

Module Number.

Definition prec : Z := 53.
Definition emax : Z := 1024.

(** A JavaScript number. *)
Definition t : Type := spec_float.

Definition zero : t := S754_zero false.
Definition Infinity : t := S754_infinity false.
Definition NaN : t := S754_nan.

(** The number denoted by an integer (exact below 2^53, rounded above). *)
Definition of_Z (z : Z) : t := binary_normalize prec emax z 0 false.

(** [x / y] and [x * y]. *)
Definition div (x y : t) : t := SFdiv prec emax x y.
Definition mul (x y : t) : t := SFmul prec emax x y.

(** [Math.round(x)]: NaN, the infinities and the zeros are returned as
    they are; a finite [x] gives the integer nearest to [x], a tie going
    to the greater integer. The sign of [x] is kept when the result is
    zero. *)
Definition Math_round (x : t) : t :=
  match x with
  | S754_finite s m e =>
      match e with
      | Zneg p =>
          let half := Z.pow_pos 2 p in
          let v := cond_Zopp s (Zpos m) in
          binary_normalize prec emax ((2 * v + half) / (2 * half)) 0 s
      | _ => x
      end
  | _ => x
  end.

(** The integer a number denotes, when it denotes one. *)
Definition to_Z (x : t) : option Z :=
  match x with
  | S754_zero _ => Some 0
  | S754_finite s m (Zpos p) => Some (cond_Zopp s (Zpos m * Z.pow_pos 2 p))
  | S754_finite s m Z0 => Some (cond_Zopp s (Zpos m))
  | S754_finite s m (Zneg p) =>
      if (Zpos m mod Z.pow_pos 2 p =? 0)
      then Some (cond_Zopp s (Zpos m / Z.pow_pos 2 p)) else None
  | _ => None
  end.

End Number.

(** [Math.round((completed / total) * 100)], the expression both mutations
    use, on the lengths of the two arrays. *)
Definition percentage (completed total : nat) : Number.t :=
  Number.Math_round
    (Number.mul
       (Number.div (Number.of_Z (Z.of_nat completed)) (Number.of_Z (Z.of_nat total)))
       (Number.of_Z 100)).

(** The percentage of the spec, in exact arithmetic: the integer nearest
    to [100 * completed / total], a tie going up. *)
Definition exact_percentage (completed total : nat) : Z :=
  (200 * Z.of_nat completed + Z.of_nat total) / (2 * Z.of_nat total).

(** ** Data model *)

Module Chapter.
(** [interface Chapter]; [timestamp] is the start offset in seconds. *)
Record t : Type := mk {
  title : string;
  time : string;
  url : string;
  timestamp : Z
}.
End Chapter.

(** The value type of [interface ProgressData]. *)
Record VideoProgress : Type := mkVideoProgress {
  completedChapters : list Z;
  lastWatchedChapter : Z;
  progressPercentage : Number.t;
  totalWatchTime : Z;
  timestamp : Z
}.

(** The object literal both mutations fall back on when the video has no
    record yet. *)
Definition defaultProgress (now : Z) : VideoProgress :=
  {| completedChapters := [];
     lastWatchedChapter := -1;
     progressPercentage := Number.zero;
     totalWatchTime := 0;
     timestamp := now |}.

(** The component state the progress functions read and write. *)
Record State : Type := mkState {
  chapters : list Chapter.t;
  videoId : string;
  progress : gmap string VideoProgress;
  currentChapter : Z
}.

Definition setCurrentChapter (c : Z) (st : State) : State :=
  {| chapters := chapters st; videoId := videoId st;
     progress := progress st; currentChapter := c |}.

Definition setProgress (f : gmap string VideoProgress -> gmap string VideoProgress)
    (st : State) : State :=
  {| chapters := chapters st; videoId := videoId st;
     progress := f (progress st); currentChapter := currentChapter st |}.

(** ** Chapter resolution *)

(** [currentTime >= chapters[i].timestamp], the clock being a rational
    number of seconds. *)
Definition reached (currentTime : Q) (c : Chapter.t) : bool :=
  Qle_bool (inject_Z (Chapter.timestamp c)) currentTime.

(** The loop [for (let i = n - 1; i >= 0; i--)] of [trackProgress], with
    [n] the number of indices still to visit: the first index met whose
    offset is reached, and 0 (the initial value of [newCurrentChapter])
    when the loop runs out. *)
Fixpoint scanDown (chs : list Chapter.t) (currentTime : Q) (n : nat) : nat :=
  match n with
  | O => O
  | S i =>
      match chs !! i with
      | Some c => if reached currentTime c then i else scanDown chs currentTime i
      | None => scanDown chs currentTime i
      end
  end.

Definition resolveChapter (chs : list Chapter.t) (currentTime : Q) : nat :=
  scanDown chs currentTime (length chs).

(** ** The two mutations *)

(** [new Set(xs)] followed by a spread: the elements in the order of their
    first insertion. *)
Definition Set_add (s : list Z) (x : Z) : list Z :=
  if decide (x ∈ s) then s else s ++ [x].

Definition new_Set (xs : list Z) : list Z := fold_left Set_add xs [].

(** The function [trackProgress] passes to [setProgress] on a forward
    advance into chapter [newCurrentChapter]; [total] is
    [chapters.length]. *)
Definition advanceUpdate (now : Z) (vid : string) (newCurrentChapter : Z)
    (total : nat) (prev : gmap string VideoProgress) : gmap string VideoProgress :=
  let videoProgress := default (defaultProgress now) (prev !! vid) in
  let newCompletedChapters :=
    new_Set (completedChapters videoProgress ++ seqZ 0 newCurrentChapter) in
  let progressPercentage := percentage (length newCompletedChapters) total in
  <[vid :=
      {| completedChapters := newCompletedChapters;
         lastWatchedChapter := newCurrentChapter;
         progressPercentage := progressPercentage;
         totalWatchTime := totalWatchTime videoProgress + 1;
         timestamp := now |}]> prev.

(** [trackProgress]: [player] is [None] when [playerRef.current] is not
    set, and the value of [getCurrentTime()] otherwise. *)
Definition trackProgress (now : Z) (player : option Q) (st : State) : State :=
  match player with
  | None => st
  | Some currentTime =>
      if decide (length (chapters st) = 0%nat) then st
      else
        let newCurrentChapter := Z.of_nat (resolveChapter (chapters st) currentTime) in
        if decide (newCurrentChapter ≠ currentChapter st) then
          let st1 := setCurrentChapter newCurrentChapter st in
          if decide (newCurrentChapter > currentChapter st) then
            setProgress
              (advanceUpdate now (videoId st) newCurrentChapter (length (chapters st)))
              st1
          else st1
        else st
  end.

(** The function [markChapterCompleted] passes to [setProgress]. *)
Definition toggleUpdate (now : Z) (vid : string) (chapterIndex : Z)
    (total : nat) (prev : gmap string VideoProgress) : gmap string VideoProgress :=
  let videoProgress := default (defaultProgress now) (prev !! vid) in
  let isCompleted := bool_decide (chapterIndex ∈ completedChapters videoProgress) in
  let newCompletedChapters :=
    if isCompleted
    then filter (λ idx, idx ≠ chapterIndex) (completedChapters videoProgress)
    else completedChapters videoProgress ++ [chapterIndex] in
  let progressPercentage := percentage (length newCompletedChapters) total in
  <[vid :=
      {| completedChapters := newCompletedChapters;
         lastWatchedChapter := chapterIndex;
         progressPercentage := progressPercentage;
         totalWatchTime := totalWatchTime videoProgress;
         timestamp := now |}]> prev.

(** [markChapterCompleted]; the empty string is the state of [videoId]
    before a video is loaded. *)
Definition markChapterCompleted (now : Z) (chapterIndex : Z) (st : State) : State :=
  if decide (videoId st = "") then st
  else setProgress (toggleUpdate now (videoId st) chapterIndex (length (chapters st))) st.

(** ** Reads *)

(** [getVideoProgress]; [None] is [null]. *)
Definition getVideoProgress (st : State) : option VideoProgress :=
  if decide (videoId st = "") then None else progress st !! videoId st.

(** [x || 0] on a number. *)
Definition or_zero (x : Number.t) : Number.t :=
  match x with
  | S754_zero _ | S754_nan => Number.zero
  | _ => x
  end.

(** [videoProgress?.progressPercentage || 0], the percentage shown. *)
Definition shownPercentage (st : State) : Number.t :=
  match getVideoProgress st with
  | None => Number.zero
  | Some r => or_zero (progressPercentage r)
  end.


(** [chapters[i]] for an integral [i]. *)
Definition chapterAt (chs : list Chapter.t) (i : Z) : option Chapter.t :=
  if decide (0 ≤ i) then chs !! Z.to_nat i else None.

(** The condition under which the panel holding the completion button is
    rendered: [chapters.length > 0 && chapters[currentChapter]]. *)
Definition completionButtonShown (st : State) : bool :=
  bool_decide (0 < length (chapters st))%nat
  && bool_decide (is_Some (chapterAt (chapters st) (currentChapter st))).

(** A click on the completion button:
    [onClick={() => markChapterCompleted(currentChapter)}], possible only
    while the button is rendered. *)
Definition clickComplete (now : Z) (st : State) : State :=
  if completionButtonShown st then markChapterCompleted now (currentChapter st) st
  else st.

(** ** The persisted store: [JSON.parse] and the load effect *)

Module JSON.

(** A parsed JSON text. A number keeps its literal and a string the text
    between its quotes (escape sequences are checked, not decoded). *)
#[local] Unset Elimination Schemes.
Inductive value : Type :=
| Null
| Bool (b : bool)
| Num (literal : string)
| Str (s : string)
| Arr (items : list value)
| Obj (members : list (string * value)).
#[local] Set Elimination Schemes.

(** What a parse yields: a value and the unread text, the [SyntaxError]
    that [JSON.parse] throws, or a recursion bound that ran out. *)
Inductive outcome (A : Type) : Type :=
| Parsed (a : A) (rest : string)
| SyntaxError
| OutOfFuel.
Arguments Parsed {A} a rest.
Arguments SyntaxError {A}.
Arguments OutOfFuel {A}.

Definition bind {A B : Type} (x : outcome A) (k : A -> string -> outcome B)
    : outcome B :=
  match x with
  | Parsed a rest => k a rest
  | SyntaxError => SyntaxError
  | OutOfFuel => OutOfFuel
  end.

Definition is_ws (c : ascii) : bool :=
  let n := nat_of_ascii c in
  (n =? 32)%nat || (n =? 9)%nat || (n =? 10)%nat || (n =? 13)%nat.

Definition is_digit (c : ascii) : bool :=
  let n := nat_of_ascii c in (48 <=? n)%nat && (n <=? 57)%nat.

Definition is_hex (c : ascii) : bool :=
  let n := nat_of_ascii c in
  is_digit c || ((65 <=? n)%nat && (n <=? 70)%nat)
             || ((97 <=? n)%nat && (n <=? 102)%nat).

Definition is_escape (c : ascii) : bool :=
  existsb (Ascii.eqb c)
    ["034" ; "\" ; "/" ; "b" ; "f" ; "n" ; "r" ; "t"]%char.

Fixpoint skip_ws (s : string) : string :=
  match s with
  | String c s' => if is_ws c then skip_ws s' else s
  | EmptyString => s
  end.

(** The text after the prefix [p] of [s]. *)
Fixpoint after (p s : string) : option string :=
  match p, s with
  | EmptyString, _ => Some s
  | String a p', String b s' => if Ascii.eqb a b then after p' s' else None
  | String _ _, EmptyString => None
  end.

(** The characters of a string after its opening quote, up to the
    closing one. *)
Fixpoint string_body (s : string) : outcome string :=
  match s with
  | EmptyString => SyntaxError
  | String c s' =>
      if Ascii.eqb c "034" then Parsed EmptyString s'
      else if (nat_of_ascii c <? 32)%nat then SyntaxError
      else if Ascii.eqb c "\" then
        match s' with
        | String e s'' =>
            if is_escape e then
              bind (string_body s'') (fun b r => Parsed (String c (String e b)) r)
            else if Ascii.eqb e "u" then
              match s'' with
              | String h1 (String h2 (String h3 (String h4 s4))) =>
                  if is_hex h1 && is_hex h2 && is_hex h3 && is_hex h4 then
                    bind (string_body s4) (fun b r =>
                      Parsed (String c (String e (String h1 (String h2
                               (String h3 (String h4 b)))))) r)
                  else SyntaxError
              | _ => SyntaxError
              end
            else SyntaxError
        | EmptyString => SyntaxError
        end
      else bind (string_body s') (fun b r => Parsed (String c b) r)
  end.

(** The longest prefix of digits and what follows it. *)
Fixpoint digits (s : string) : string * string :=
  match s with
  | String c s' =>
      if is_digit c then let '(d, r) := digits s' in (String c d, r)
      else (EmptyString, s)
  | EmptyString => (EmptyString, s)
  end.

(** One or more digits. *)
Definition digits1 (s : string) : outcome string :=
  match digits s with
  | (EmptyString, _) => SyntaxError
  | (d, r) => Parsed d r
  end.

(** A number literal: an optional minus sign; a zero, or a digit from 1
    to 9 followed by digits; an optional point with one or more digits;
    an optional exponent mark with an optional sign and one or more
    digits. *)
Definition number (s : string) : outcome string :=
  let '(sign, s1) :=
    match s with
    | String "-" r => ("-"%string, r)
    | _ => (EmptyString, s)
    end in
  bind (match s1 with
        | String "0" r => Parsed "0"%string r
        | _ => digits1 s1
        end) (fun int s2 =>
  bind (match s2 with
        | String "." r => bind (digits1 r) (fun d r' => Parsed (String "." d) r')
        | _ => Parsed EmptyString s2
        end) (fun frac s3 =>
  bind (match s3 with
        | String c r =>
            if Ascii.eqb c "e" || Ascii.eqb c "E" then
              let '(sg, r1) :=
                match r with
                | String "+" r' => ("+"%string, r')
                | String "-" r' => ("-"%string, r')
                | _ => (EmptyString, r)
                end in
              bind (digits1 r1) (fun d r' => Parsed (String c (sg ++ d)) r')
            else Parsed EmptyString s3
        | EmptyString => Parsed EmptyString s3
        end) (fun ex s4 =>
  Parsed (sign ++ int ++ frac ++ ex)%string s4))).

(** A value, the elements of an array after its first bracket, and the
    members of an object after its first brace. Every call reads at
    least one character before it recurses, so a bound above the length
    of the text is never used up. *)
Fixpoint parse_value (fuel : nat) (s : string) : outcome value :=
  match fuel with
  | O => OutOfFuel
  | S fuel' =>
      match skip_ws s with
      | String "{" r =>
          match skip_ws r with
          | String "}" r' => Parsed (Obj []) r'
          | r' => bind (parse_members fuel' r') (fun ms r'' => Parsed (Obj ms) r'')
          end
      | String "[" r =>
          match skip_ws r with
          | String "]" r' => Parsed (Arr []) r'
          | r' => bind (parse_elements fuel' r') (fun vs r'' => Parsed (Arr vs) r'')
          end
      | String "034" r => bind (string_body r) (fun b r' => Parsed (Str b) r')
      | s0 =>
          match after "true" s0, after "false" s0, after "null" s0 with
          | Some r, _, _ => Parsed (Bool true) r
          | _, Some r, _ => Parsed (Bool false) r
          | _, _, Some r => Parsed Null r
          | None, None, None => bind (number s0) (fun l r => Parsed (Num l) r)
          end
      end
  end
with parse_elements (fuel : nat) (s : string) : outcome (list value) :=
  match fuel with
  | O => OutOfFuel
  | S fuel' =>
      bind (parse_value fuel' s) (fun v r =>
      match skip_ws r with
      | String "," r' =>
          bind (parse_elements fuel' r') (fun vs r'' => Parsed (v :: vs) r'')
      | String "]" r' => Parsed [v] r'
      | _ => SyntaxError
      end)
  end
with parse_members (fuel : nat) (s : string) : outcome (list (string * value)) :=
  match fuel with
  | O => OutOfFuel
  | S fuel' =>
      match skip_ws s with
      | String "034" r =>
          bind (string_body r) (fun k r1 =>
          match skip_ws r1 with
          | String ":" r2 =>
              bind (parse_value fuel' r2) (fun v r3 =>
              match skip_ws r3 with
              | String "," r4 =>
                  bind (parse_members fuel' r4) (fun ms r5 => Parsed ((k, v) :: ms) r5)
              | String "}" r4 => Parsed [(k, v)] r4
              | _ => SyntaxError
              end)
          | _ => SyntaxError
          end)
      | _ => SyntaxError
      end
  end.

(** [JSON.parse(text)]: one value, with white space around it and
    nothing else. *)
Definition parse (text : string) : outcome value :=
  bind (parse_value (S (String.length text)) text) (fun v r =>
    match skip_ws r with
    | EmptyString => Parsed v EmptyString
    | _ => SyntaxError
    end).

End JSON.

(** What the load effect does to the component. *)
Inductive LoadResult : Type :=
| KeepsInitialState                 (* [progress] stays the empty object *)
| SetsProgress (v : JSON.value)     (* [setProgress(JSON.parse(...))] *)
| Throws                            (* the [SyntaxError] escapes the effect *)
| Undetermined.                     (* the parser's bound ran out *)

(** The effect that loads the store: [savedProgress] is the result of
    [localStorage.getItem], [None] being [null]. The parsed value becomes
    the state without any check of its shape. *)
Definition loadProgress (savedProgress : option string) : LoadResult :=
  match savedProgress with
  | None => KeepsInitialState
  | Some EmptyString => KeepsInitialState
  | Some text =>
      match JSON.parse text with
      | JSON.Parsed v _ => SetsProgress v
      | JSON.SyntaxError => Throws
      | JSON.OutOfFuel => Undetermined
      end
  end.

(** ** Notions the properties are stated with *)

(** The record of [vid] as a mutation sees it. *)
Definition recordOf (now : Z) (vid : string) (store : gmap string VideoProgress)
    : VideoProgress :=
  default (defaultProgress now) (store !! vid).

(** The completed list after one toggle. *)
Definition toggled (idx : Z) (cs : list Z) : list Z :=
  if bool_decide (idx ∈ cs) then filter (λ i, i ≠ idx) cs else cs ++ [idx].

(** The offsets never decrease along the list. *)
Definition non_decreasing (chs : list Chapter.t) : Prop :=
  ∀ (i j : nat) (ci cj : Chapter.t),
    (i ≤ j)%nat → chs !! i = Some ci → chs !! j = Some cj →
    Chapter.timestamp ci ≤ Chapter.timestamp cj.

(** [c] starts at or before [t]. *)
Definition starts_by (t : Q) (c : Chapter.t) : Prop :=
  (inject_Z (Chapter.timestamp c) <= t)%Q.

(** Every completed chapter of the loaded video is an index of its chapter
    list. *)
Definition completed_in_range (st : State) : Prop :=
  ∀ r k, progress st !! videoId st = Some r → k ∈ completedChapters r →
    0 ≤ k < Z.of_nat (length (chapters st)).

(** ** Sample states *)

(** Three chapters at 0:00, 2:00 and 5:00. *)
Definition sample_chapters : list Chapter.t :=
  [ Chapter.mk "Intro" "0:00" "" 0;
    Chapter.mk "Setup" "2:00" "" 120;
    Chapter.mk "Usage" "5:00" "" 300 ].

(** A fresh store, the sample chapters loaded, the player in chapter 0. *)
Definition sample_state : State :=
  {| chapters := sample_chapters; videoId := "dQw4w9WgXcQ";
     progress := ∅; currentChapter := 0 |}.

(** A record that holds chapters 0 and 2 of the sample video. *)
Definition sample_record : VideoProgress :=
  {| completedChapters := [0; 2]; lastWatchedChapter := 2;
     progressPercentage := percentage 2 3; totalWatchTime := 7;
     timestamp := 500 |}.

Definition watched_state : State :=
  {| chapters := sample_chapters; videoId := "dQw4w9WgXcQ";
     progress := {[ "dQw4w9WgXcQ" := sample_record ]}; currentChapter := 2 |}.

(** A store that holds a record for a second video. *)
Definition two_videos_state : State :=
  {| chapters := sample_chapters; videoId := "dQw4w9WgXcQ";
     progress := {[ "dQw4w9WgXcQ" := sample_record; "9bZkp7q19f0" := sample_record ]};
     currentChapter := 0 |}.

(** Forty chapters, one a minute. *)
Definition forty_chapters : list Chapter.t :=
  (λ i : nat, Chapter.mk "" "" "" (60 * Z.of_nat i)) <$> seq 0 40.

Definition forty_state : State :=
  {| chapters := forty_chapters; videoId := "dQw4w9WgXcQ";
     progress := ∅; currentChapter := 0 |}.

(** A video identifier set and no chapter list, as between the start of a
    fetch and its answer. *)
Definition empty_state : State :=
  {| chapters := []; videoId := "dQw4w9WgXcQ"; progress := ∅; currentChapter := 0 |}.

(** * The rest of the component *)

(** ** The video identifier of a URL *)

(** A character of the class [[a-zA-Z0-9_-]]. *)
Definition is_id_char (c : ascii) : bool :=
  let n := nat_of_ascii c in
  ((97 <=? n)%nat && (n <=? 122)%nat) || ((65 <=? n)%nat && (n <=? 90)%nat)
  || ((48 <=? n)%nat && (n <=? 57)%nat) || (n =? 95)%nat || (n =? 45)%nat.

(** The group [([a-zA-Z0-9_-]{n})] at the start of [s]. *)
Fixpoint id_chars (n : nat) (s : string) : option string :=
  match n with
  | O => Some EmptyString
  | S n' =>
      match s with
      | String c s' => if is_id_char c then String c <$> id_chars n' s' else None
      | EmptyString => None
      end
  end.

(** A match of the pattern that starts at the first character of [s]: one
    of the three prefixes, tried in the order of the alternation, then
    eleven characters of the class. The result is the group. *)
Definition match_here (s : string) : option string :=
  match JSON.after "v=" s ≫= id_chars 11 with
  | Some id => Some id
  | None =>
      match JSON.after "youtu.be/" s ≫= id_chars 11 with
      | Some id => Some id
      | None => JSON.after "youtube.com/shorts/" s ≫= id_chars 11
      end
  end.

(** [extractVideoId]: the group of the leftmost match of the pattern in
    [url], [None] being [null]. *)
Fixpoint extractVideoId (url : string) : option string :=
  match match_here url with
  | Some id => Some id
  | None =>
      match url with
      | String _ rest => extractVideoId rest
      | EmptyString => None
      end
  end.

(** ** Chapter times *)

(** [timeStr.split(':')]. *)
Fixpoint split_colon (s : string) : list string :=
  match s with
  | EmptyString => [EmptyString]
  | String c s' =>
      if Ascii.eqb c ":" then EmptyString :: split_colon s'
      else match split_colon s' with
           | p :: ps => String c p :: ps
           | [] => [String c EmptyString]
           end
  end.








(** ** The sampling timer *)

(** The interval handle of the component and the timers of the browser:
    [scheduled] holds the intervals that are running, [next_id] is the
    identifier the next [setInterval] returns (identifiers are positive
    and never reused). *)
Record Timers : Type := mkTimers {
  progressIntervalRef : option positive;
  scheduled : gset positive;
  next_id : positive
}.

Definition no_timers : Timers :=
  {| progressIntervalRef := None; scheduled := ∅; next_id := 1%positive |}.

(** [stopProgressTracking]. *)
Definition stopProgressTracking (tm : Timers) : Timers :=
  match progressIntervalRef tm with
  | Some id =>
      {| progressIntervalRef := None;
         scheduled := scheduled tm ∖ {[ id ]};
         next_id := next_id tm |}
  | None => tm
  end.

(** [startProgressTracking]. *)
Definition startProgressTracking (tm : Timers) : Timers :=
  let tm1 := stopProgressTracking tm in
  {| progressIntervalRef := Some (next_id tm1);
     scheduled := scheduled tm1 ∪ {[ next_id tm1 ]};
     next_id := Pos.succ (next_id tm1) |}.

(** The values of [YT.PlayerState]. *)
Inductive PlayerState : Type :=
| UNSTARTED | ENDED | PLAYING | PAUSED | BUFFERING | CUED.

(** [onPlayerReady]. *)
Definition onPlayerReady (tm : Timers) : Timers := startProgressTracking tm.

(** [onPlayerStateChange], [data] being [event.data]. *)
Definition onPlayerStateChange (data : PlayerState) (tm : Timers) : Timers :=
  match data with
  | PLAYING => startProgressTracking tm
  | PAUSED | ENDED => stopProgressTracking tm
  | _ => tm
  end.

(** What reaches the timer: the two player callbacks and the cleanup of
    the effect that creates the player. *)
Inductive TimerEvent : Type :=
| Ready
| StateChange (data : PlayerState)
| Cleanup.

Definition timerStep (tm : Timers) (e : TimerEvent) : Timers :=
  match e with
  | Ready => onPlayerReady tm
  | StateChange data => onPlayerStateChange data tm
  | Cleanup => stopProgressTracking tm
  end.

Definition timerRun (es : list TimerEvent) : Timers := fold_left timerStep es no_timers.

(** ** Seeking *)

(** [seekToChapter]: [player] tells whether [playerRef.current] is set.
    The result is the new state and the argument of the call of
    [seekTo], if it is called. *)
Definition seekToChapter (player : bool) (chapterIndex : Z) (st : State)
    : State * option Z :=
  match player, chapterAt (chapters st) chapterIndex with
  | true, Some c => (setCurrentChapter chapterIndex st, Some (Chapter.timestamp c))
  | _, _ => (st, None)
  end.

(** ** Saving the store: [JSON.stringify] and the save effect *)

(** The text of a string value or of a key. It is the text
    [JSON.stringify] writes when the string holds no quote, no backslash
    and no control character, so that nothing is escaped. *)
Definition quoted (s rest : string) : string :=
  String "034" (s ++ String "034" rest).

(** [JSON.stringify(v)] without indentation, followed by [rest]: no white
    space is written, the elements of an array and the members of an
    object are separated by commas. *)
Fixpoint stringify_to (v : JSON.value) (rest : string) : string :=
  match v with
  | JSON.Null => "null" ++ rest
  | JSON.Bool true => "true" ++ rest
  | JSON.Bool false => "false" ++ rest
  | JSON.Num literal => literal ++ rest
  | JSON.Str s => quoted s rest
  | JSON.Arr [] => String "[" (String "]" rest)
  | JSON.Arr (x :: xs) =>
      String "[" (stringify_to x
        ((fix elements (l : list JSON.value) : string :=
            match l with
            | [] => String "]" rest
            | y :: l' => String "," (stringify_to y (elements l'))
            end) xs))
  | JSON.Obj [] => String "{" (String "}" rest)
  | JSON.Obj ((k, x) :: ms) =>
      String "{" (quoted k (String ":" (stringify_to x
        ((fix members (l : list (string * JSON.value)) : string :=
            match l with
            | [] => String "}" rest
            | (k', y) :: l' =>
                String "," (quoted k' (String ":" (stringify_to y (members l'))))
            end) ms))))
  end.

Definition JSON_stringify (v : JSON.value) : string := stringify_to v EmptyString.

(** An integral number as [JSON.stringify] writes it. *)
Definition integerValue (z : Z) : JSON.value := JSON.Num (pretty z).

(** A percentage as [JSON.stringify] writes it: the result of
    [Math.round] is an integer, written in decimal, or it is [NaN] or
    an infinity, written [null]. *)
Definition percentageValue (x : Number.t) : JSON.value :=
  match Number.to_Z x with
  | Some z => integerValue z
  | None => JSON.Null
  end.

(** A record as a value: its properties in the order in which the object
    literals of the two mutations create them. *)
Definition recordValue (r : VideoProgress) : JSON.value :=
  JSON.Obj
    [ ("completedChapters", JSON.Arr (integerValue <$> completedChapters r));
      ("lastWatchedChapter", integerValue (lastWatchedChapter r));
      ("progressPercentage", percentageValue (progressPercentage r));
      ("totalWatchTime", integerValue (totalWatchTime r));
      ("timestamp", integerValue (timestamp r)) ].

(** The progress object as a value. The order of its keys is the order of
    the finite map, not the order of insertion. *)
Definition storeValue (store : gmap string VideoProgress) : JSON.value :=
  JSON.Obj (prod_map id recordValue <$> map_to_list store).

(** The text the save effect writes under the key of the store:
    [JSON.stringify(progress)]. *)
Definition saveProgress (store : gmap string VideoProgress) : string :=
  JSON_stringify (storeValue store).

(** ** Notions of the further properties *)

(** Every character of [s] is of the class of identifiers. *)
Fixpoint all_id_chars (s : string) : bool :=
  match s with
  | String c s' => is_id_char c && all_id_chars s'
  | EmptyString => true
  end.

(** Eleven characters of the class: the form of a video identifier. *)
Definition is_video_id (s : string) : Prop :=
  String.length s = 11%nat ∧ all_id_chars s = true.

(** No character of [s] is [c]. *)
Fixpoint free_of (c : ascii) (s : string) : bool :=
  match s with
  | String a s' => negb (Ascii.eqb a c) && free_of c s'
  | EmptyString => true
  end.

(** One or more decimal digits. *)
Fixpoint all_digits (s : string) : bool :=
  match s with
  | String c EmptyString => JSON.is_digit c
  | String c s' => JSON.is_digit c && all_digits s'
  | EmptyString => false
  end.

(** The number a string of decimal digits denotes, digit by position. *)
Fixpoint decimal (s : string) : Z :=
  match s with
  | String c s' =>
      (Z.of_nat (nat_of_ascii c) - 48) * 10 ^ Z.of_nat (String.length s') + decimal s'
  | EmptyString => 0
  end.

(** ** The loaded value read as a store *)

(** The load effect sets the parsed value as the state without a check;
    the component then reads it as [ProgressData]. The definitions below
    are that reading for a value of the expected shape: an object of
    records whose numbers are integers. *)

(** The integer an integer literal denotes. *)
Definition literalInteger (literal : string) : option Z :=
  match literal with
  | String c d =>
      if Ascii.eqb c "-"
      then if all_digits d then Some (- decimal d) else None
      else if all_digits literal then Some (decimal literal) else None
  | EmptyString => None
  end.

Definition valueInteger (v : JSON.value) : option Z :=
  match v with
  | JSON.Num literal => literalInteger literal
  | _ => None
  end.

(** The property [key] of an object; of two members with the same key
    the later one counts. *)
Fixpoint property (key : string) (members : list (string * JSON.value))
    : option JSON.value :=
  match members with
  | [] => None
  | (k, v) :: rest =>
      match property key rest with
      | Some v' => Some v'
      | None => if String.eqb k key then Some v else None
      end
  end.

(** A value read as a record of progress: its five properties, the
    numbers being integers. *)
Definition valueRecord (v : JSON.value) : option VideoProgress :=
  match v with
  | JSON.Obj members =>
      cs ← property "completedChapters" members ≫=
             (λ a, match a with
                   | JSON.Arr items => mapM valueInteger items
                   | _ => None
                   end);
      lw ← property "lastWatchedChapter" members ≫= valueInteger;
      pp ← property "progressPercentage" members ≫= valueInteger;
      tw ← property "totalWatchTime" members ≫= valueInteger;
      ts ← property "timestamp" members ≫= valueInteger;
      Some {| completedChapters := cs; lastWatchedChapter := lw;
              progressPercentage := Number.of_Z pp; totalWatchTime := tw;
              timestamp := ts |}
  | _ => None
  end.

(** A value read as the progress object: a record under every key, the
    later of two members with the same key counting. *)
Definition valueStore (v : JSON.value) : option (gmap string VideoProgress) :=
  match v with
  | JSON.Obj members =>
      list_to_map <$>
        mapM (λ kv : string * JSON.value, (λ r, (fst kv, r)) <$> valueRecord (snd kv))
             (reverse members)
  | _ => None
  end.

(** The interval of the handle, if any, is the only one that runs, and the
    next identifier has not been given out. *)
Definition one_timer (tm : Timers) : Prop :=
  scheduled tm = match progressIntervalRef tm with
                 | Some id => {[ id ]}
                 | None => ∅
                 end ∧
  ∀ id, id ∈ scheduled tm → (id < next_id tm)%positive.

(** [100 * completed / total] lies half way between two integers. *)
Definition half_way (completed total : nat) : bool :=
  (200 * Z.of_nat completed) mod (2 * Z.of_nat total) =? Z.of_nat total.

(** Two numbers are the same number. *)
Definition number_eqb (x y : Number.t) : bool :=
  match x, y with
  | S754_zero a, S754_zero b => Bool.eqb a b
  | S754_infinity a, S754_infinity b => Bool.eqb a b
  | S754_nan, S754_nan => true
  | S754_finite s m e, S754_finite s' m' e' =>
      Bool.eqb s s' && Pos.eqb m m' && Z.eqb e e'
  | _, _ => false
  end.

(** The stored percentage is an integer from 0 to 100, the nearest to
    [100 * completed / total], or the one below it at a half-way ratio. *)
Definition percentage_close (completed total : nat) : bool :=
  match Number.to_Z (percentage completed total) with
  | Some p =>
      number_eqb (percentage completed total) (Number.of_Z p) &&
      (0 <=? p) && (p <=? 100) &&
      ((p =? exact_percentage completed total)
       || ((p =? exact_percentage completed total - 1) && half_way completed total))
  | None => false
  end.

(** The check of all ratios [completed / total] with [completed] up to
    [total] and [total] from 1 to [bound]. *)
Definition percentage_close_upto (bound : nat) : bool :=
  forallb (λ total, forallb (λ completed, percentage_close completed total)
                      (seq 0 (S total)))
          (seq 1 bound).

(** No chapter is listed twice as completed for the loaded video. *)
Definition completed_NoDup (st : State) : Prop :=
  ∀ r, progress st !! videoId st = Some r → NoDup (completedChapters r).

(** What a user does to a loaded video, and what the timer does: a sample
    of the player clock, a click on the completion button, a click on a
    chapter of the list. *)
Inductive Action : Type :=
| Sample (now : Z) (player : option Q)
| ClickComplete (now : Z)
| ClickChapter (player : bool) (chapterIndex : Z).

Definition act (st : State) (a : Action) : State :=
  match a with
  | Sample now player => trackProgress now player st
  | ClickComplete now => clickComplete now st
  | ClickChapter player chapterIndex => fst (seekToChapter player chapterIndex st)
  end.

Definition actAll (actions : list Action) (st : State) : State :=
  fold_left act actions st.

(** The record of the loaded video, if there is one, lists chapters of the
    video, each once, and its percentage is an integer from 0 to 100 that
    is the exact percentage of the list or, at a half-way ratio, one
    below. *)
Definition record_sound (st : State) : Prop :=
  ∀ r, progress st !! videoId st = Some r →
    NoDup (completedChapters r) ∧
    (∀ k, k ∈ completedChapters r → 0 ≤ k < Z.of_nat (length (chapters st))) ∧
    ∃ p, progressPercentage r = Number.of_Z p ∧ 0 ≤ p ≤ 100 ∧
         exact_percentage (length (completedChapters r)) (length (chapters st)) - 1
           ≤ p ≤ exact_percentage (length (completedChapters r)) (length (chapters st)).

(** A character that [JSON.stringify] writes as it is inside a string:
    no control character, no quote, no backslash. *)
Definition is_plain_char (c : ascii) : bool :=
  (32 <=? nat_of_ascii c)%nat && negb (Ascii.eqb c "034") && negb (Ascii.eqb c "\").

Fixpoint plain (s : string) : bool :=
  match s with
  | String c s' => is_plain_char c && plain s'
  | EmptyString => true
  end.

(** The text after a number does not continue the number. *)
Definition ends_number (rest : string) : bool :=
  match rest with
  | String c _ =>
      negb (JSON.is_digit c || Ascii.eqb c "." || Ascii.eqb c "e" || Ascii.eqb c "E")
  | EmptyString => true
  end.

(** Decimal digits, possibly none. *)
Fixpoint digits_only (s : string) : bool :=
  match s with
  | String c s' => JSON.is_digit c && digits_only s'
  | EmptyString => true
  end.

(** What [JSON.number] does after the digits before the point: [sign] and
    [int] are the texts read so far. *)
Definition number_tail (sign int s2 : string) : JSON.outcome string :=
  JSON.bind (match s2 with
             | String "." r =>
                 JSON.bind (JSON.digits1 r) (fun d r' => JSON.Parsed (String "." d) r')
             | _ => JSON.Parsed EmptyString s2
             end) (fun frac s3 =>
  JSON.bind (match s3 with
             | String c r =>
                 if Ascii.eqb c "e" || Ascii.eqb c "E" then
                   let '(sg, r1) :=
                     match r with
                     | String "+" r' => ("+"%string, r')
                     | String "-" r' => ("-"%string, r')
                     | _ => (EmptyString, r)
                     end in
                   JSON.bind (JSON.digits1 r1)
                     (fun d r' => JSON.Parsed (String c (sg ++ d)) r')
                 else JSON.Parsed EmptyString s3
             | EmptyString => JSON.Parsed EmptyString s3
             end) (fun ex s4 =>
  JSON.Parsed (sign ++ int ++ frac ++ ex)%string s4)).

(** The text of the elements of an array after the first, and of the
    members of an object after the first, with the closing bracket. *)
Fixpoint stringify_elements (l : list JSON.value) (rest : string) : string :=
  match l with
  | [] => String "]" rest
  | y :: l' => String "," (stringify_to y (stringify_elements l' rest))
  end.

Fixpoint stringify_members (l : list (string * JSON.value)) (rest : string) : string :=
  match l with
  | [] => String "}" rest
  | (k, y) :: l' =>
      String "," (quoted k (String ":" (stringify_to y (stringify_members l' rest))))
  end.

(** The number of values, elements and members of a value. *)
Fixpoint value_size (v : JSON.value) : nat :=
  match v with
  | JSON.Arr items =>
      S ((fix sizes (l : list JSON.value) : nat :=
            match l with
            | [] => O
            | x :: l' => S (value_size x + sizes l')
            end) items)
  | JSON.Obj members =>
      S ((fix sizes (l : list (string * JSON.value)) : nat :=
            match l with
            | [] => O
            | (_, x) :: l' => S (value_size x + sizes l')
            end) members)
  | _ => 1%nat
  end.

(** A value whose numbers are integers and whose strings and keys need
    no escape. *)
Fixpoint printable (v : JSON.value) : Prop :=
  match v with
  | JSON.Num literal => ∃ z : Z, literal = pretty z
  | JSON.Str s => plain s = true
  | JSON.Arr items =>
      (fix all (l : list JSON.value) : Prop :=
         match l with
         | [] => True
         | x :: l' => printable x ∧ all l'
         end) items
  | JSON.Obj members =>
      (fix all (l : list (string * JSON.value)) : Prop :=
         match l with
         | [] => True
         | (k, x) :: l' => plain k = true ∧ printable x ∧ all l'
         end) members
  | _ => True
  end.

(** The first character of the text of a value. *)
Definition is_value_start (c : ascii) : bool :=
  JSON.is_digit c ||
  existsb (Ascii.eqb c) ["-"; "n"; "t"; "f"; "034"; "["; "{"]%char.

(** The text that follows a value inside an array or an object, or at the
    end. *)
Definition is_follow (rest : string) : bool :=
  match rest with
  | String c _ => existsb (Ascii.eqb c) [","; "]"; "}"]%char
  | EmptyString => true
  end.

Fixpoint elements_size (l : list JSON.value) : nat :=
  match l with
  | [] => O
  | x :: l' => S (value_size x + elements_size l')
  end.

Fixpoint members_size (l : list (string * JSON.value)) : nat :=
  match l with
  | [] => O
  | (_, x) :: l' => S (value_size x + members_size l')
  end.

Fixpoint elements_printable (l : list JSON.value) : Prop :=
  match l with
  | [] => True
  | x :: l' => printable x ∧ elements_printable l'
  end.

Fixpoint members_printable (l : list (string * JSON.value)) : Prop :=
  match l with
  | [] => True
  | (k, x) :: l' => plain k = true ∧ printable x ∧ members_printable l'
  end.

(** Every key of the store is written without an escape. *)
Definition plain_keys (store : gmap string VideoProgress) : Prop :=
  ∀ k r, store !! k = Some r → plain k = true.

(** Every percentage of the store is a number [Math.round] returns: an
    integer, [NaN] or an infinity. These are the numbers
    [percentageValue] covers. *)
Definition rounded_percentages (store : gmap string VideoProgress) : Prop :=
  ∀ k r, store !! k = Some r →
    match progressPercentage r with
    | S754_finite _ _ _ => is_Some (Number.to_Z (progressPercentage r))
    | _ => True
    end.

(** Every percentage of the store is an integer from 0 to 100. *)
Definition whole_percentages (store : gmap string VideoProgress) : Prop :=
  ∀ k r, store !! k = Some r →
    ∃ p, 0 ≤ p ≤ 100 ∧ progressPercentage r = Number.of_Z p.

(** An action that is not a click on the completion button. *)
Definition no_toggle (a : Action) : bool :=
  match a with
  | ClickComplete _ => false
  | _ => true
  end.


(** * Properties *)

(** ** Chapter resolution *)

Lemma reached_starts_by t c : reached t c = true ↔ starts_by t c.
Proof. unfold reached, starts_by. apply Qle_bool_iff. Qed.

Lemma reached_false t c : reached t c = false ↔ ¬ starts_by t c.
Proof.
  rewrite <- reached_starts_by. destruct (reached t c); split; congruence.
Qed.

Section Scan.
Variable chs : list Chapter.t.
Variable t : Q.

(** The scan stops at an index below its bound, or gives 0. *)
Lemma scanDown_bound n : (scanDown chs t n ≤ pred n)%nat.
Proof.
  induction n as [|n IH]; simpl; [lia|].
  destruct (chs !! n) as [c|]; [destruct (reached t c)|]; lia.
Qed.

(** No index the scan passed over has started. *)
Lemma scanDown_above n i c :
  (scanDown chs t n < i < n)%nat → chs !! i = Some c → ¬ starts_by t c.
Proof.
  induction n as [|n IH]; simpl; [lia|].
  intros Hi Hc. destruct (chs !! n) as [cn|] eqn:Hn.
  - destruct (reached t cn) eqn:Hr; [lia|].
    destruct (decide (i = n)) as [->|Hne].
    + rewrite Hn in Hc. inversion Hc; subst. by apply reached_false.
    + apply IH; [lia | done].
  - destruct (decide (i = n)) as [->|Hne]; [congruence|].
    apply IH; [lia | done].
Qed.

(** When some index below the bound has started, the scan stops at an
    index that has. *)
Lemma scanDown_hit n i c :
  (i < n)%nat → chs !! i = Some c → starts_by t c →
  ∃ c', chs !! scanDown chs t n = Some c' ∧ starts_by t c'.
Proof.
  induction n as [|n IH]; simpl; [lia|].
  intros Hi Hc Hs. destruct (chs !! n) as [cn|] eqn:Hn.
  - destruct (reached t cn) eqn:Hr.
    + exists cn. split; [done | by apply reached_starts_by].
    + destruct (decide (i = n)) as [->|Hne].
      * rewrite Hn in Hc. inversion Hc; subst.
        apply reached_false in Hr. done.
      * apply IH; [lia | done | done].
  - destruct (decide (i = n)) as [->|Hne]; [congruence|].
    apply IH; [lia | done | done].
Qed.

(** When no index below the bound has started, the scan gives 0. *)
Lemma scanDown_none n :
  (∀ i c, (i < n)%nat → chs !! i = Some c → ¬ starts_by t c) →
  scanDown chs t n = 0%nat.
Proof.
  induction n as [|n IH]; simpl; [done|].
  intros Hnone. destruct (chs !! n) as [cn|] eqn:Hn.
  - destruct (reached t cn) eqn:Hr.
    + apply reached_starts_by in Hr. exfalso. apply (Hnone n cn); [lia|done|done].
    + apply IH. intros i c Hi. apply Hnone. lia.
  - apply IH. intros i c Hi. apply Hnone. lia.
Qed.
End Scan.

Lemma resolveChapter_lt chs t : chs ≠ [] → (resolveChapter chs t < length chs)%nat.
Proof.
  intros Hne. unfold resolveChapter.
  pose proof (scanDown_bound chs t (length chs)).
  destruct chs; [done | simpl in *; lia].
Qed.

Lemma sample_chapters_non_decreasing : non_decreasing sample_chapters.
Proof.
  intros i j ci cj Hij Hi Hj.
  destruct i as [|[|[|i]]]; destruct j as [|[|[|j]]];
    simpl in Hi, Hj; simplify_eq; simpl; lia.
Qed.

(** C1. On a chapter list whose offsets never decrease, the resolution
    step returns the greatest index whose offset is at most the clock
    position [t]: every index that has started is at most the result, and
    the result has itself started (so of several chapters with the same
    offset the last one wins); it returns 0 when [t] is before the first
    offset. *)
Theorem resolveChapter_greatest (chs : list Chapter.t) (t : Q) :
  non_decreasing chs →
  (∀ i c, chs !! i = Some c → starts_by t c →
     (i ≤ resolveChapter chs t)%nat ∧
     ∃ c', chs !! resolveChapter chs t = Some c' ∧ starts_by t c') ∧
  (∀ i j ci cj, (i < j)%nat → chs !! i = Some ci → chs !! j = Some cj →
     Chapter.timestamp ci = Chapter.timestamp cj → starts_by t cj →
     resolveChapter chs t ≠ i) ∧
  (∀ c0, chs !! 0%nat = Some c0 → (t < inject_Z (Chapter.timestamp c0))%Q →
     resolveChapter chs t = 0%nat).
Proof.
  intros Hsorted. unfold resolveChapter.
  assert (Hmax : ∀ i c, chs !! i = Some c → starts_by t c →
            (i ≤ scanDown chs t (length chs))%nat).
  { intros i c Hc Hs.
    destruct (decide (i ≤ scanDown chs t (length chs))%nat) as [|Hgt]; [done|].
    exfalso. apply (scanDown_above chs t (length chs) i c); [|done|done].
    apply lookup_lt_Some in Hc. lia. }
  split; [|split].
  - intros i c Hc Hs. split; [by eapply Hmax|].
    apply (scanDown_hit chs t (length chs) i c); [|done|done].
    by apply lookup_lt_Some in Hc.
  - intros i j ci cj Hij Hi Hj Heq Hs Hres.
    pose proof (Hmax j cj Hj Hs). lia.
  - intros c0 Hc0 Hbefore. apply scanDown_none.
    intros i c Hi Hc Hs. unfold starts_by in Hs.
    assert (Chapter.timestamp c0 ≤ Chapter.timestamp c) as Hle
      by (apply (Hsorted 0%nat i c0 c); [lia|done|done]).
    apply (Qlt_not_le _ _ Hbefore).
    eapply Qle_trans; [|exact Hs].
    rewrite <- Zle_Qle. exact Hle.
Qed.

(** The scenario of the spec: a sample at 150 seconds is in chapter 1. *)
Lemma resolveChapter_greatest_witness :
  non_decreasing sample_chapters ∧ resolveChapter sample_chapters 150 = 1%nat ∧
  (∀ i c, sample_chapters !! i = Some c → starts_by 150 c → (i ≤ 1)%nat).
Proof.
  split; [exact sample_chapters_non_decreasing|]. split; [reflexivity|].
  intros i c Hc Hs.
  exact (proj1 (proj1 (resolveChapter_greatest sample_chapters 150
                         sample_chapters_non_decreasing) i c Hc Hs)).
Defined.

(** ** Sets of completed chapters *)

Lemma elem_of_fold_Set_add (xs acc : list Z) (x : Z) :
  x ∈ fold_left Set_add xs acc ↔ x ∈ acc ∨ x ∈ xs.
Proof.
  revert acc. induction xs as [|y xs IH]; intros acc; simpl.
  - rewrite elem_of_nil. tauto.
  - rewrite IH, elem_of_cons. unfold Set_add.
    destruct (decide (y ∈ acc)) as [Hin|Hout].
    + split; [tauto|]. intros [?|[ ->|?]]; tauto.
    + rewrite elem_of_app, list_elem_of_singleton. tauto.
Qed.

Lemma elem_of_new_Set (xs : list Z) (x : Z) : x ∈ new_Set xs ↔ x ∈ xs.
Proof.
  unfold new_Set. rewrite elem_of_fold_Set_add, elem_of_nil. tauto.
Qed.

Lemma NoDup_fold_Set_add (xs acc : list Z) :
  NoDup acc → NoDup (fold_left Set_add xs acc).
Proof.
  revert acc. induction xs as [|y xs IH]; intros acc Hacc; simpl; [done|].
  apply IH. unfold Set_add. destruct (decide (y ∈ acc)); [done|].
  apply NoDup_app. split; [done|]. split; [|apply NoDup_singleton].
  intros z Hz Hy. apply list_elem_of_singleton in Hy. by subst.
Qed.

(** A set holds each value once. *)
Lemma NoDup_new_Set (xs : list Z) : NoDup (new_Set xs).
Proof. apply NoDup_fold_Set_add, NoDup_nil_2. Qed.

(** ** The advance *)

Lemma advanceUpdate_lookup now vid b total prev :
  advanceUpdate now vid b total prev !! vid =
  Some {| completedChapters :=
            new_Set (completedChapters (recordOf now vid prev) ++ seqZ 0 b);
          lastWatchedChapter := b;
          progressPercentage :=
            percentage
              (length (new_Set (completedChapters (recordOf now vid prev) ++ seqZ 0 b)))
              total;
          totalWatchTime := totalWatchTime (recordOf now vid prev) + 1;
          timestamp := now |}.
Proof. unfold advanceUpdate, recordOf. by rewrite lookup_insert_eq. Qed.

Lemma advanceUpdate_other now vid b total prev w :
  w ≠ vid → advanceUpdate now vid b total prev !! w = prev !! w.
Proof. intros Hne. unfold advanceUpdate. by rewrite lookup_insert_ne. Qed.

(** A sample that resolves to a chapter after the current one. *)
Lemma trackProgress_forward now t st :
  chapters st ≠ [] →
  Z.of_nat (resolveChapter (chapters st) t) > currentChapter st →
  trackProgress now (Some t) st =
  setProgress
    (advanceUpdate now (videoId st) (Z.of_nat (resolveChapter (chapters st) t))
       (length (chapters st)))
    (setCurrentChapter (Z.of_nat (resolveChapter (chapters st) t)) st).
Proof.
  intros Hne Hgt. unfold trackProgress.
  destruct (decide (length (chapters st) = 0%nat)) as [Hlen|_].
  { destruct (chapters st); [done | discriminate]. }
  destruct (decide (_ ≠ _)) as [_|Heq]; [|lia].
  destruct (decide (_ > _)); [done | lia].
Qed.



(** ** The percentage *)

(** The scenarios of the spec on three chapters: one completed chapter
    gives 33, none gives 0. *)
Example percentage_one_of_three : Number.to_Z (percentage 1 3) = Some 33.
Proof. reflexivity. Qed.

Example percentage_none_of_three : percentage 0 3 = Number.zero.
Proof. reflexivity. Qed.

(** On 23 of 40 the quotient is rounded down to the nearest binary64
    number, its product with 100 is 57.49999999999999 and not 57.5. *)
Example product_23_of_40 :
  Number.mul (Number.div (Number.of_Z 23) (Number.of_Z 40)) (Number.of_Z 100)
  = S754_finite false 8092405580431359 (-47)
  ∧ 8092405580431359 < 115 * 2 ^ 46.
Proof. split; [vm_compute; reflexivity | lia]. Qed.

(** C3, at an input where the code and the claim differ. With forty
    chapters and a fresh store, a sample at the start of chapter 23
    completes the 23 chapters before it; the stored percentage is 57,
    while the integer nearest to 100 * 23 / 40 = 57.5 is 58. *)
Theorem percentage_23_of_40 :
  ∃ r, progress (trackProgress 1000 (Some 1380%Q) forty_state) !! "dQw4w9WgXcQ" = Some r ∧
    length (completedChapters r) = 23%nat ∧
    length (chapters forty_state) = 40%nat ∧
    Number.to_Z (progressPercentage r) = Some 57 ∧
    exact_percentage 23 40 = 58.
Proof.
  assert (Hres : resolveChapter forty_chapters 1380 = 23%nat)
    by (vm_compute; reflexivity).
  eexists. split.
  - rewrite trackProgress_forward.
    + simpl. apply advanceUpdate_lookup.
    + discriminate.
    + simpl. rewrite Hres. reflexivity.
  - simpl. rewrite Hres. vm_compute. repeat split; reflexivity.
Qed.

(** ** Loading the store *)

Example loadProgress_absent : loadProgress None = KeepsInitialState.
Proof. reflexivity. Qed.

Example loadProgress_empty_object : loadProgress (Some "{}") = SetsProgress (JSON.Obj []).
Proof. reflexivity. Qed.

(** C4, at the input of the spec's scenario. The text "{not json" is not
    JSON: after the brace the parser meets neither a quote nor a closing
    brace. [JSON.parse] throws, nothing catches the error, and the load
    does not produce a store. *)
Theorem loadProgress_malformed_throws :
  JSON.parse "{not json" = JSON.SyntaxError ∧
  loadProgress (Some "{not json") = Throws.
Proof. split; reflexivity. Qed.

(** ** No chapters *)

(** C5 as stated fails on [markChapterCompleted]: without chapters the
    function divides by zero, and the percentage it stores is Infinity. *)
Lemma markChapterCompleted_no_chapters_Infinity :
  progressPercentage <$> (progress (markChapterCompleted 1000 0 empty_state) !! "dQw4w9WgXcQ")
    = Some Number.Infinity
  ∧ Number.Infinity ≠ Number.zero.
Proof. split; [vm_compute; reflexivity | discriminate]. Qed.

Lemma trackProgress_no_chapters now player st :
  chapters st = [] → trackProgress now player st = st.
Proof.
  intros Hnil. unfold trackProgress. destruct player; [|done].
  rewrite Hnil. simpl. done.
Qed.

Lemma clickComplete_no_chapters now st :
  chapters st = [] → clickComplete now st = st.
Proof.
  intros Hnil. unfold clickComplete, completionButtonShown.
  rewrite Hnil. simpl. done.
Qed.

(** C5, amended. Without chapters no percentage is recomputed: a sample
    returns before any mutation, the completion button is not rendered and
    a click on it is impossible, so the state, its store and the
    percentage shown stay as they are. *)
Theorem no_chapters_no_mutation (now : Z) (player : option Q) (st : State) :
  chapters st = [] →
  trackProgress now player st = st ∧
  completionButtonShown st = false ∧
  clickComplete now st = st.
Proof.
  intros Hnil. split; [by apply trackProgress_no_chapters|].
  split; [|by apply clickComplete_no_chapters].
  unfold completionButtonShown. rewrite Hnil. done.
Qed.

Lemma no_chapters_no_mutation_witness :
  chapters empty_state = [] ∧
  trackProgress 1000 (Some 150%Q) empty_state = empty_state ∧
  completionButtonShown empty_state = false ∧
  clickComplete 1000 empty_state = empty_state.
Proof.
  split; [reflexivity|].
  apply (no_chapters_no_mutation 1000 (Some 150%Q) empty_state). reflexivity.
Defined.

(** ** The completion toggle *)

Lemma toggleUpdate_lookup now vid idx total prev :
  toggleUpdate now vid idx total prev !! vid =
  Some (let old := recordOf now vid prev in
        let cs := if bool_decide (idx ∈ completedChapters old)
                  then filter (λ i, i ≠ idx) (completedChapters old)
                  else completedChapters old ++ [idx] in
        {| completedChapters := cs;
           lastWatchedChapter := idx;
           progressPercentage := percentage (length cs) total;
           totalWatchTime := totalWatchTime old;
           timestamp := now |}).
Proof. unfold toggleUpdate, recordOf. by rewrite lookup_insert_eq. Qed.

Lemma toggleUpdate_other now vid idx total prev w :
  w ≠ vid → toggleUpdate now vid idx total prev !! w = prev !! w.
Proof. intros Hne. unfold toggleUpdate. by rewrite lookup_insert_ne. Qed.

Lemma elem_of_toggled idx cs k :
  k ∈ toggled idx cs ↔ (k = idx ∧ idx ∉ cs) ∨ (k ≠ idx ∧ k ∈ cs).
Proof.
  unfold toggled. case_bool_decide as Hin.
  - rewrite list_elem_of_filter. split.
    + intros [? ?]. by right.
    + intros [[-> ?]|[? ?]]; done.
  - rewrite elem_of_app, list_elem_of_singleton. split.
    + intros [?| ->]; [right|left]; split; try done. by intros ->.
    + intros [[-> ?]|[? ?]]; [by right | by left].
Qed.


Lemma markChapterCompleted_lookup now idx st :
  videoId st ≠ "" →
  progress (markChapterCompleted now idx st) !! videoId st =
  Some (let old := recordOf now (videoId st) (progress st) in
        {| completedChapters := toggled idx (completedChapters old);
           lastWatchedChapter := idx;
           progressPercentage :=
             percentage (length (toggled idx (completedChapters old)))
               (length (chapters st));
           totalWatchTime := totalWatchTime old;
           timestamp := now |}).
Proof.
  intros Hvid. unfold markChapterCompleted.
  destruct (decide (videoId st = "")); [done|]. simpl.
  by rewrite toggleUpdate_lookup.
Qed.

Lemma markChapterCompleted_frame now idx st :
  videoId (markChapterCompleted now idx st) = videoId st ∧
  chapters (markChapterCompleted now idx st) = chapters st ∧
  currentChapter (markChapterCompleted now idx st) = currentChapter st.
Proof. unfold markChapterCompleted. by destruct (decide (videoId st = "")). Qed.





(** ** Backward movement *)

Lemma trackProgress_frame now player st :
  videoId (trackProgress now player st) = videoId st ∧
  chapters (trackProgress now player st) = chapters st.
Proof.
  unfold trackProgress. destruct player; [|done].
  repeat (case_decide; try done).
Qed.



(** ** A video without a record *)




(** ** The range of the completed chapters *)

(** C9 as stated fails on the toggle: given an index that is not a chapter
    of the video, it stores that index. *)
Lemma markChapterCompleted_out_of_range :
  completed_in_range sample_state ∧
  completedChapters <$> (progress (markChapterCompleted 1000 5 sample_state) !! "dQw4w9WgXcQ")
    = Some [5] ∧
  length (chapters sample_state) = 3%nat ∧
  ¬ completed_in_range (markChapterCompleted 1000 5 sample_state).
Proof.
  split; [intros r k H; discriminate H|].
  split; [vm_compute; reflexivity|]. split; [reflexivity|].
  intros Hrange.
  assert (H5 : 0 ≤ 5 < Z.of_nat (length (chapters (markChapterCompleted 1000 5 sample_state)))).
  { eapply Hrange; [vm_compute; reflexivity|]. simpl. apply list_elem_of_here. }
  vm_compute in H5. destruct H5 as [_ H5]. discriminate H5.
Qed.

Lemma markChapterCompleted_in_range now idx st :
  0 ≤ idx < Z.of_nat (length (chapters st)) →
  completed_in_range st → completed_in_range (markChapterCompleted now idx st).
Proof.
  intros Hidx Hrange r k.
  destruct (markChapterCompleted_frame now idx st) as (-> & -> & _).
  destruct (decide (videoId st = "")) as [Hempty|Hvid].
  { unfold markChapterCompleted. rewrite decide_True by done. apply Hrange. }
  rewrite markChapterCompleted_lookup by done. cbv zeta.
  intros [= <-]. simpl. rewrite elem_of_toggled.
  intros [[-> _]|[_ Hin]]; [done|].
  unfold recordOf in Hin.
  destruct (progress st !! videoId st) as [r0|] eqn:Hr0; simpl in Hin.
  - by eapply Hrange.
  - by apply elem_of_nil in Hin.
Qed.

Lemma trackProgress_in_range now player st :
  completed_in_range st → completed_in_range (trackProgress now player st).
Proof.
  intros Hrange r k.
  destruct (trackProgress_frame now player st) as (-> & ->).
  unfold trackProgress. destruct player as [t|]; [|apply Hrange].
  destruct (decide (length (chapters st) = 0%nat)) as [Hlen|Hlen]; [apply Hrange|].
  assert (Hne : chapters st ≠ []) by (intros Hnil; by rewrite Hnil in Hlen).
  pose proof (resolveChapter_lt (chapters st) t Hne) as Hlt.
  cbv zeta. destruct (decide (_ ≠ _)) as [_|_]; [|apply Hrange].
  destruct (decide (_ > _)) as [_|_]; [|apply Hrange].
  simpl. rewrite advanceUpdate_lookup. intros [= <-]. simpl.
  rewrite elem_of_new_Set, elem_of_app, elem_of_seqZ.
  intros [Hin|Hin]; [|lia].
  unfold recordOf in Hin.
  destruct (progress st !! videoId st) as [r0|] eqn:Hr0; simpl in Hin.
  - by eapply Hrange.
  - by apply elem_of_nil in Hin.
Qed.

(** C9, amended. The completed chapters of the loaded video stay inside
    the index range of its chapter list under every sample, under every
    click on the completion button (which passes the current chapter and
    is rendered only while that chapter exists), and under a toggle whose
    index is a chapter of the video. *)
Theorem completed_in_range_preserved (now idx : Z) (player : option Q) (st : State) :
  completed_in_range st →
  completed_in_range (trackProgress now player st) ∧
  completed_in_range (clickComplete now st) ∧
  (0 ≤ idx < Z.of_nat (length (chapters st)) →
   completed_in_range (markChapterCompleted now idx st)).
Proof.
  intros Hrange. split; [by apply trackProgress_in_range|].
  split; [|intros Hidx; by apply markChapterCompleted_in_range].
  unfold clickComplete. destruct (completionButtonShown st) eqn:Hshown; [|done].
  unfold completionButtonShown in Hshown.
  apply andb_true_iff in Hshown as [_ Hsome]. apply bool_decide_eq_true in Hsome.
  apply markChapterCompleted_in_range; [|done].
  unfold chapterAt in Hsome. destruct (decide (0 ≤ currentChapter st)) as [Hpos|];
    [|by destruct Hsome].
  apply lookup_lt_is_Some in Hsome. lia.
Qed.

Lemma completed_in_range_preserved_witness :
  completed_in_range watched_state ∧
  completed_in_range (trackProgress 1000 (Some 400%Q) watched_state) ∧
  completed_in_range (clickComplete 1000 watched_state) ∧
  completed_in_range (markChapterCompleted 1000 1 watched_state).
Proof.
  assert (Hrange : completed_in_range watched_state).
  { intros r k Hr Hk. vm_compute in Hr. inversion Hr; subst r. simpl in Hk.
    apply elem_of_cons in Hk as [->|Hk]; [simpl; lia|].
    apply list_elem_of_singleton in Hk as ->. simpl. lia. }
  split; [exact Hrange|].
  destruct (completed_in_range_preserved 1000 1 (Some 400%Q) watched_state Hrange)
    as (Htrack & Hclick & Hmark).
  split; [exact Htrack|]. split; [exact Hclick|].
  apply Hmark. simpl. lia.
Defined.

(** ** Other videos *)

(** C10. A sample and a toggle leave the record of every video other than
    the loaded one as it was, and a toggle leaves the watch time of the
    loaded video as it was (0, the default, when it had no record). *)
Theorem mutations_frame (now idx : Z) (player : option Q) (st : State) (w : string) :
  w ≠ videoId st →
  progress (trackProgress now player st) !! w = progress st !! w ∧
  progress (markChapterCompleted now idx st) !! w = progress st !! w ∧
  totalWatchTime
    (recordOf now (videoId st) (progress (markChapterCompleted now idx st)))
  = totalWatchTime (recordOf now (videoId st) (progress st)).
Proof.
  intros Hw. split; [|split].
  - unfold trackProgress. destruct player as [t|]; [|done].
    repeat (case_decide; try done). simpl.
    by apply advanceUpdate_other.
  - unfold markChapterCompleted. case_decide; [done|]. simpl.
    by apply toggleUpdate_other.
  - destruct (decide (videoId st = "")) as [Hempty|Hvid].
    + unfold markChapterCompleted. by rewrite decide_True by done.
    + unfold recordOf at 1. by rewrite markChapterCompleted_lookup by done.
Qed.

Lemma mutations_frame_witness :
  "9bZkp7q19f0" ≠ videoId two_videos_state ∧
  progress (trackProgress 1000 (Some 150%Q) two_videos_state) !! "9bZkp7q19f0"
    = Some sample_record ∧
  progress (markChapterCompleted 1000 1 two_videos_state) !! "9bZkp7q19f0"
    = Some sample_record.
Proof.
  assert (Hw : "9bZkp7q19f0" ≠ videoId two_videos_state) by discriminate.
  split; [exact Hw|].
  destruct (mutations_frame 1000 1 (Some 150%Q) two_videos_state "9bZkp7q19f0" Hw)
    as (Htrack & Hmark & _).
  split; [rewrite Htrack | rewrite Hmark]; reflexivity.
Defined.

(** * Further properties *)

(** ** extractVideoId *)

Lemma id_chars_shape n s id :
  id_chars n s = Some id → String.length id = n ∧ all_id_chars id = true.
Proof.
  revert s id. induction n as [|n IH]; intros s id; simpl.
  - intros [= <-]. done.
  - destruct s as [|c s]; [done|].
    destruct (is_id_char c) eqn:Hc; [|done].
    destruct (id_chars n s) as [id'|] eqn:Hid; [|done]. simpl.
    intros [= <-]. destruct (IH _ _ Hid) as [Hlen Hall]. simpl.
    rewrite Hc, Hall, Hlen. done.
Qed.

Lemma id_chars_prefix id rest :
  all_id_chars id = true → id_chars (String.length id) (id ++ rest) = Some id.
Proof.
  induction id as [|c id IH]; simpl; [done|].
  intros [Hc Hall]%andb_true_iff. rewrite Hc, IH by done. done.
Qed.

Lemma match_here_shape s id : match_here s = Some id → is_video_id id.
Proof.
  unfold match_here, is_video_id.
  destruct (JSON.after "v=" s ≫= id_chars 11) as [i1|] eqn:H1.
  { intros [= <-]. destruct (JSON.after "v=" s); [|done]. by eapply id_chars_shape. }
  destruct (JSON.after "youtu.be/" s ≫= id_chars 11) as [i2|] eqn:H2.
  { intros [= <-]. destruct (JSON.after "youtu.be/" s); [|done]. by eapply id_chars_shape. }
  intros H3. destruct (JSON.after "youtube.com/shorts/" s); [|done]. by eapply id_chars_shape.
Qed.

Lemma extractVideoId_is_video_id url id : extractVideoId url = Some id → is_video_id id.
Proof.
  induction url as [|c url IH]; simpl.
  - discriminate.
  - destruct (match_here (String c url)) eqn:Hm; [|done].
    intros [= <-]. by eapply match_here_shape.
Qed.

(** X1. Whatever the text, an identifier [extractVideoId] returns is made
    of exactly eleven characters of the class of letters, digits,
    underscore and hyphen; it is never the empty string, the value of
    [videoId] that stands for no video. *)
Theorem extractVideoId_shape (url id : string) :
  extractVideoId url = Some id → is_video_id id ∧ id ≠ "".
Proof.
  intros H. pose proof (extractVideoId_is_video_id url id H) as Hid.
  split; [done|]. destruct Hid as [Hlen _]. intros ->. discriminate Hlen.
Qed.

Lemma extractVideoId_shape_witness :
  extractVideoId "https://www.youtube.com/watch?v=dQw4w9WgXcQ&t=42s" = Some "dQw4w9WgXcQ"
  ∧ is_video_id "dQw4w9WgXcQ" ∧ "dQw4w9WgXcQ" ≠ "".
Proof.
  split; [reflexivity|].
  apply (extractVideoId_shape "https://www.youtube.com/watch?v=dQw4w9WgXcQ&t=42s").
  reflexivity.
Defined.

Lemma append_String c s t : (String c s ++ t)%string = String c (s ++ t).
Proof. reflexivity. Qed.

(** X2. For the three usual forms of a link (watch page, short link,
    shorts page) [extractVideoId] returns the identifier of the link,
    whatever text follows it: characters after the eleventh are not
    looked at. *)
Theorem extractVideoId_known_urls (id rest : string) :
  is_video_id id →
  extractVideoId ("https://www.youtube.com/watch?v=" ++ id ++ rest) = Some id ∧
  extractVideoId ("https://youtu.be/" ++ id ++ rest) = Some id ∧
  extractVideoId ("https://www.youtube.com/shorts/" ++ id ++ rest) = Some id.
Proof.
  intros [Hlen Hall].
  pose proof (id_chars_prefix id rest Hall) as Hid. rewrite Hlen in Hid.
  remember (id +:+ rest) as tail eqn:Htail.
  repeat split; cbv -[id_chars]; by rewrite Hid.
Qed.

Lemma extractVideoId_known_urls_witness :
  is_video_id "dQw4w9WgXcQ" ∧
  extractVideoId "https://www.youtube.com/watch?v=dQw4w9WgXcQ&list=PL1" = Some "dQw4w9WgXcQ" ∧
  extractVideoId "https://youtu.be/dQw4w9WgXcQ?t=10" = Some "dQw4w9WgXcQ".
Proof.
  assert (Hid : is_video_id "dQw4w9WgXcQ") by (split; reflexivity).
  split; [exact Hid|].
  split.
  - exact (proj1 (extractVideoId_known_urls "dQw4w9WgXcQ" "&list=PL1" Hid)).
  - exact (proj1 (proj2 (extractVideoId_known_urls "dQw4w9WgXcQ" "?t=10" Hid))).
Defined.

(** ** extractVideoId: no match *)

Lemma after_free c p s r :
  JSON.after p s = Some r → free_of c s = true → free_of c p = true.
Proof.
  revert s. induction p as [|a p IH]; intros s; simpl; [done|].
  destruct s as [|b s]; [done|].
  destruct (Ascii.eqb a b) eqn:Hab; [|done].
  apply Ascii.eqb_eq in Hab as ->. simpl.
  intros Hafter [Hb Hs]%andb_true_iff. rewrite Hb. simpl. by eapply IH.
Qed.

Lemma match_here_free s :
  free_of "=" s = true → free_of "/" s = true → match_here s = None.
Proof.
  intros Heq Hsl. unfold match_here.
  destruct (JSON.after "v=" s) as [r|] eqn:H1.
  { pose proof (after_free "=" _ _ _ H1 Heq) as Hp. discriminate Hp. }
  destruct (JSON.after "youtu.be/" s) as [r|] eqn:H2.
  { pose proof (after_free "/" _ _ _ H2 Hsl) as Hp. discriminate Hp. }
  destruct (JSON.after "youtube.com/shorts/" s) as [r|] eqn:H3.
  { pose proof (after_free "/" _ _ _ H3 Hsl) as Hp. discriminate Hp. }
  done.
Qed.

Lemma all_id_chars_free (c : ascii) (s : string) :
  is_id_char c = false → all_id_chars s = true → free_of c s = true.
Proof.
  intros Hc. induction s as [|a s IH]; simpl; [done|].
  intros [Ha Hs]%andb_true_iff. rewrite IH by done.
  destruct (Ascii.eqb a c) eqn:Hac; [|done].
  apply Ascii.eqb_eq in Hac as ->. congruence.
Qed.

(** X3. A text without an equals sign and without a slash holds no video
    identifier for [extractVideoId]: a bare identifier, pasted without
    its URL, is rejected. *)
Theorem extractVideoId_no_match (url : string) :
  free_of "=" url = true → free_of "/" url = true →
  extractVideoId url = None.
Proof.
  induction url as [|c url IH]; intros Heq Hsl.
  - reflexivity.
  - simpl. rewrite match_here_free by done.
    simpl in Heq, Hsl.
    apply andb_true_iff in Heq as [_ Heq]. apply andb_true_iff in Hsl as [_ Hsl].
    by apply IH.
Qed.

Lemma extractVideoId_no_match_witness :
  free_of "=" "dQw4w9WgXcQ" = true ∧ free_of "/" "dQw4w9WgXcQ" = true ∧
  extractVideoId "dQw4w9WgXcQ" = None.
Proof.
  split; [reflexivity|]. split; [reflexivity|].
  apply (extractVideoId_no_match "dQw4w9WgXcQ"); reflexivity.
Defined.

(** ** parseTimeToSeconds *)





Lemma string_app_nil (s : string) : (s ++ "")%string = s.
Proof. induction s as [|c s IH]; [done|]. by rewrite append_String, IH. Qed.



Lemma split_colon_nonempty s : split_colon s ≠ [].
Proof.
  destruct s as [|c s]; simpl; [done|].
  destruct (Ascii.eqb c ":"); [done|]. by destruct (split_colon s).
Qed.





(** ** The sampling timer *)

Lemma one_timer_stop tm :
  one_timer tm → one_timer (stopProgressTracking tm) ∧ scheduled (stopProgressTracking tm) = ∅.
Proof.
  intros [Hsched Hfresh]. unfold stopProgressTracking, one_timer.
  destruct (progressIntervalRef tm) as [id|] eqn:Hid; simpl in *.
  - rewrite Hsched. split; [split|]; set_solver.
  - rewrite Hid. simpl. split; [split|]; set_solver.
Qed.

Lemma one_timer_start tm :
  one_timer tm →
  one_timer (startProgressTracking tm) ∧
  scheduled (startProgressTracking tm) = {[ next_id tm ]}.
Proof.
  intros Hone. destruct (one_timer_stop tm Hone) as [[Hsched Hfresh] Hempty].
  assert (Hnext : next_id (stopProgressTracking tm) = next_id tm).
  { unfold stopProgressTracking. by destruct (progressIntervalRef tm). }
  unfold startProgressTracking, one_timer. simpl. rewrite Hempty, Hnext.
  split; [split|]; [set_solver| |set_solver].
  intros id Hin. assert (id = next_id tm) as -> by set_solver. lia.
Qed.

Lemma one_timer_step tm e : one_timer tm → one_timer (timerStep tm e).
Proof.
  intros Hone. destruct e as [|data|]; simpl.
  - by apply one_timer_start.
  - destruct data; simpl; try done;
      first [ by apply one_timer_start | by apply one_timer_stop ].
  - by apply one_timer_stop.
Qed.

Lemma one_timer_fold es tm : one_timer tm → one_timer (fold_left timerStep es tm).
Proof.
  revert tm. induction es as [|e es IH]; intros tm Hone; simpl; [done|].
  apply IH. by apply one_timer_step.
Qed.

Lemma one_timer_initial : one_timer no_timers.
Proof. split; [done|]. intros id Hin. set_solver. Qed.

(** X5. After any sequence of player callbacks and effect cleanups at most one
    interval runs, and it is the one the handle holds: no interval is
    lost while it still runs. *)
Theorem timerRun_one_timer (es : list TimerEvent) :
  scheduled (timerRun es) = match progressIntervalRef (timerRun es) with
                            | Some id => {[ id ]}
                            | None => ∅
                            end ∧
  (size (scheduled (timerRun es)) ≤ 1)%nat.
Proof.
  destruct (one_timer_fold es no_timers one_timer_initial) as [Hsched _].
  fold (timerRun es) in Hsched. split; [done|]. rewrite Hsched.
  destruct (progressIntervalRef (timerRun es)).
  - by rewrite size_singleton.
  - rewrite size_empty. lia.
Qed.

(** X6. After any history, a callback for a start of playback (or for the
    player being ready) leaves exactly one interval running, a new one; a
    callback for a pause or the end, and a cleanup, leave none; every
    other change of the player state leaves the timer as it is. Stopping
    twice is stopping once. *)
Theorem timer_after_event (es : list TimerEvent) (e : TimerEvent) :
  let before := timerRun es in
  let after := timerRun (es ++ [e]) in
  match e with
  | Ready | StateChange PLAYING =>
      scheduled after = {[ next_id before ]} ∧ next_id before ∉ scheduled before
  | StateChange PAUSED | StateChange ENDED | Cleanup =>
      scheduled after = ∅ ∧ progressIntervalRef after = None ∧
      stopProgressTracking after = after
  | StateChange _ => after = before
  end.
Proof.
  intros before after. subst after. unfold timerRun. rewrite fold_left_app. simpl.
  fold (timerRun es). fold before.
  pose proof (one_timer_fold es no_timers one_timer_initial) as Hone.
  fold (timerRun es) in Hone. fold before in Hone.
  assert (Hstart : scheduled (startProgressTracking before) = {[ next_id before ]}
                   ∧ next_id before ∉ scheduled before).
  { split; [by apply one_timer_start|].
    intros Hin. apply (proj2 Hone) in Hin. lia. }
  assert (Hstop : scheduled (stopProgressTracking before) = ∅ ∧
                  progressIntervalRef (stopProgressTracking before) = None ∧
                  stopProgressTracking (stopProgressTracking before)
                  = stopProgressTracking before).
  { split; [by apply one_timer_stop|].
    unfold stopProgressTracking.
    destruct (progressIntervalRef before) as [id|] eqn:Hid; simpl; [done|].
    by rewrite Hid. }
  destruct e as [|[]|]; simpl; done.
Qed.

(** ** Seeking *)

(** X7. With a player and offsets that never decrease, a click on chapter
    [i] of the list makes [i] the current chapter and moves the player to
    the offset of the chapter; resolved at that offset, the current
    chapter is [i] or a later chapter with the same offset, and it is [i]
    when every later chapter starts later. *)
Theorem seekToChapter_resolves (i : nat) (c : Chapter.t) (st : State) :
  non_decreasing (chapters st) →
  chapters st !! i = Some c →
  let r := resolveChapter (chapters st) (inject_Z (Chapter.timestamp c)) in
  seekToChapter true (Z.of_nat i) st
    = (setCurrentChapter (Z.of_nat i) st, Some (Chapter.timestamp c)) ∧
  (i ≤ r)%nat ∧
  (∃ c', chapters st !! r = Some c' ∧ Chapter.timestamp c' = Chapter.timestamp c) ∧
  ((∀ j cj, (i < j)%nat → chapters st !! j = Some cj →
      Chapter.timestamp c < Chapter.timestamp cj) → r = i).
Proof.
  intros Hsorted Hc r.
  assert (Hstart : starts_by (inject_Z (Chapter.timestamp c)) c).
  { unfold starts_by. apply Qle_refl. }
  assert (Hlt : (i < length (chapters st))%nat) by (by eapply lookup_lt_Some).
  assert (Hir : (i ≤ r)%nat).
  { subst r. unfold resolveChapter.
    destruct (decide (i ≤ scanDown (chapters st) (inject_Z (Chapter.timestamp c))
                           (length (chapters st)))%nat) as [|Hgt]; [done|].
    exfalso.
    apply (scanDown_above (chapters st) (inject_Z (Chapter.timestamp c))
             (length (chapters st)) i c); [lia | done | done]. }
  destruct (scanDown_hit (chapters st) (inject_Z (Chapter.timestamp c))
              (length (chapters st)) i c Hlt Hc Hstart) as (c' & Hc' & Hs').
  fold (resolveChapter (chapters st) (inject_Z (Chapter.timestamp c))) in Hc'.
  fold r in Hc'.
  assert (Heq : Chapter.timestamp c' = Chapter.timestamp c).
  { unfold starts_by in Hs'. rewrite <- Zle_Qle in Hs'.
    pose proof (Hsorted i r c c' Hir Hc Hc'). lia. }
  split; [|split; [done|split; [by exists c'|]]].
  - unfold seekToChapter, chapterAt. rewrite decide_True by lia.
    by rewrite Nat2Z.id, Hc.
  - intros Hstrict. destruct (decide (r = i)) as [|Hne]; [done|].
    assert (i < r)%nat as Hlt' by lia.
    pose proof (Hstrict r c' Hlt' Hc'). lia.
Qed.

Lemma seekToChapter_resolves_witness :
  non_decreasing (chapters sample_state) ∧
  chapters sample_state !! 1%nat = Some (Chapter.mk "Setup" "2:00" "" 120) ∧
  seekToChapter true 1 sample_state = (setCurrentChapter 1 sample_state, Some 120) ∧
  resolveChapter (chapters sample_state) 120 = 1%nat.
Proof.
  split; [exact sample_chapters_non_decreasing|]. split; [reflexivity|].
  destruct (seekToChapter_resolves 1 (Chapter.mk "Setup" "2:00" "" 120) sample_state
              sample_chapters_non_decreasing eq_refl) as (Hseek & _ & _ & Hres).
  split; [exact Hseek|]. apply Hres.
  intros j cj Hj Hcj. destruct j as [|[|[|j]]]; simpl in Hcj; simplify_eq; simpl; lia.
Defined.

(** ** The percentage on up to 200 chapters *)

Lemma percentage_close_200 : percentage_close_upto 200 = true.
Proof. vm_cast_no_check (eq_refl true). Qed.

Lemma percentage_close_upto_sound (bound completed total : nat) :
  percentage_close_upto bound = true →
  (0 < total ≤ bound)%nat → (completed ≤ total)%nat →
  percentage_close completed total = true.
Proof.
  unfold percentage_close_upto. intros Hall Htotal Hcompleted.
  rewrite forallb_forall in Hall.
  assert (Hin : In total (seq 1 bound)) by (apply in_seq; lia).
  specialize (Hall total Hin). cbv beta in Hall. rewrite forallb_forall in Hall.
  apply Hall. apply in_seq. lia.
Qed.

Lemma number_eqb_eq x y : number_eqb x y = true → x = y.
Proof.
  destruct x as [a|a| |a m e], y as [b|b| |b m' e']; simpl; try done.
  - by intros ->%Bool.eqb_prop.
  - by intros ->%Bool.eqb_prop.
  - intros [[Hs Hm]%andb_true_iff He]%andb_true_iff.
    apply Bool.eqb_prop in Hs. apply Pos.eqb_eq in Hm. apply Z.eqb_eq in He.
    by subst.
Qed.

Lemma percentage_close_spec (completed total : nat) :
  percentage_close completed total = true →
  ∃ p, percentage completed total = Number.of_Z p ∧
       Number.to_Z (percentage completed total) = Some p ∧
       0 ≤ p ≤ 100 ∧
       (p = exact_percentage completed total ∨
        (p = exact_percentage completed total - 1 ∧
         (200 * Z.of_nat completed) mod (2 * Z.of_nat total) = Z.of_nat total)).
Proof.
  unfold percentage_close.
  destruct (Number.to_Z (percentage completed total)) as [p|]; [|discriminate].
  intros Hall. exists p.
  apply andb_true_iff in Hall as [Hrange Hnear].
  apply andb_true_iff in Hrange as [Hrange H100].
  apply andb_true_iff in Hrange as [Hsame H0].
  apply number_eqb_eq in Hsame.
  apply Z.leb_le in H0. apply Z.leb_le in H100.
  split; [done|]. split; [reflexivity|]. split; [lia|].
  apply orb_true_iff in Hnear as [Heq|Hhalf].
  - left. by apply Z.eqb_eq.
  - right. apply andb_true_iff in Hhalf as [Heq Hhalf].
    unfold half_way in Hhalf. split; [by apply Z.eqb_eq | by apply Z.eqb_eq].
Qed.

(** X8. With up to 200 chapters the percentage of [completed] chapters out
    of [total] is an integer from 0 to 100: the integer nearest to
    [100 * completed / total] (a tie going up), or the integer below it
    when the ratio lies half way between two integers. *)
Theorem percentage_within_one (completed total : nat) :
  (0 < total ≤ 200)%nat → (completed ≤ total)%nat →
  ∃ p, percentage completed total = Number.of_Z p ∧
       Number.to_Z (percentage completed total) = Some p ∧
       0 ≤ p ≤ 100 ∧
       (p = exact_percentage completed total ∨
        (p = exact_percentage completed total - 1 ∧
         (200 * Z.of_nat completed) mod (2 * Z.of_nat total) = Z.of_nat total)).
Proof.
  intros Htotal Hcompleted. apply percentage_close_spec.
  exact (percentage_close_upto_sound 200 completed total
           percentage_close_200 Htotal Hcompleted).
Qed.

Lemma percentage_within_one_witness :
  (0 < 40 ≤ 200)%nat ∧ (23 ≤ 40)%nat ∧
  ∃ p, Number.to_Z (percentage 23 40) = Some p ∧ 0 ≤ p ≤ 100.
Proof.
  assert (H1 : (0 < 40 ≤ 200)%nat) by lia. assert (H2 : (23 ≤ 40)%nat) by lia.
  split; [exact H1|]. split; [exact H2|].
  destruct (percentage_within_one 23 40 H1 H2) as (p & _ & Hp & Hrange & _).
  exists p. split; [exact Hp | exact Hrange].
Defined.

(** ** No chapter completed twice *)

Lemma NoDup_toggled idx cs : NoDup cs → NoDup (toggled idx cs).
Proof.
  intros Hnd. unfold toggled. case_bool_decide as Hin.
  - by apply NoDup_filter.
  - apply NoDup_app. split; [done|]. split; [|apply NoDup_singleton].
    intros k Hk Hk'. apply list_elem_of_singleton in Hk'. by subst.
Qed.

Lemma recordOf_NoDup now st :
  completed_NoDup st → NoDup (completedChapters (recordOf now (videoId st) (progress st))).
Proof.
  intros Hnd. unfold recordOf.
  destruct (progress st !! videoId st) as [r|] eqn:Hr; simpl.
  - by apply Hnd.
  - apply NoDup_nil_2.
Qed.

Lemma markChapterCompleted_NoDup now idx st :
  completed_NoDup st → completed_NoDup (markChapterCompleted now idx st).
Proof.
  intros Hnd r.
  destruct (markChapterCompleted_frame now idx st) as (-> & _ & _).
  destruct (decide (videoId st = "")) as [Hempty|Hvid].
  { unfold markChapterCompleted. rewrite decide_True by done. apply Hnd. }
  rewrite markChapterCompleted_lookup by done. cbv zeta.
  intros [= <-]. simpl. by apply NoDup_toggled, recordOf_NoDup.
Qed.

(** What a sample leaves in the store: the store as it was, or the
    advance to the resolved chapter. *)
Lemma trackProgress_progress now player st :
  progress (trackProgress now player st) = progress st ∨
  ∃ t, player = Some t ∧ chapters st ≠ [] ∧
       progress (trackProgress now player st)
       = advanceUpdate now (videoId st) (Z.of_nat (resolveChapter (chapters st) t))
           (length (chapters st)) (progress st).
Proof.
  unfold trackProgress. destruct player as [t|]; [|by left].
  destruct (decide (length (chapters st) = 0%nat)) as [Hlen|Hlen]; [by left|].
  cbv zeta. destruct (decide (_ ≠ _)) as [_|_]; [|by left].
  destruct (decide (_ > _)) as [_|_]; [|by left].
  right. exists t. split; [done|]. split; [|done].
  intros Hnil. by rewrite Hnil in Hlen.
Qed.

Lemma trackProgress_NoDup now player st :
  completed_NoDup st → completed_NoDup (trackProgress now player st).
Proof.
  intros Hnd r. destruct (trackProgress_frame now player st) as (-> & _).
  destruct (trackProgress_progress now player st) as [->|(t & _ & _ & ->)].
  - apply Hnd.
  - rewrite advanceUpdate_lookup. intros [= <-]. simpl. apply NoDup_new_Set.
Qed.

(** X9. Both mutations keep the completed chapters of the loaded video free of
    duplicates, and an advance leaves the list free of duplicates
    whatever the record held before. *)
Theorem completed_NoDup_preserved (now idx b : Z) (player : option Q)
    (total : nat) (st : State) :
  completed_NoDup st →
  completed_NoDup (trackProgress now player st) ∧
  completed_NoDup (markChapterCompleted now idx st) ∧
  (∀ prev r, advanceUpdate now (videoId st) b total prev !! videoId st = Some r →
             NoDup (completedChapters r)).
Proof.
  intros Hnd. split; [by apply trackProgress_NoDup|].
  split; [by apply markChapterCompleted_NoDup|].
  intros prev r. rewrite advanceUpdate_lookup. intros [= <-]. simpl. apply NoDup_new_Set.
Qed.

Lemma completed_NoDup_preserved_witness :
  completed_NoDup watched_state ∧
  completed_NoDup (trackProgress 1000 (Some 400%Q) watched_state) ∧
  completed_NoDup (markChapterCompleted 1000 1 watched_state).
Proof.
  assert (Hnd : completed_NoDup watched_state).
  { intros r Hr. vm_compute in Hr. inversion Hr; subst r. simpl.
    apply NoDup_cons. split; [|apply NoDup_singleton].
    intros Hin. apply list_elem_of_singleton in Hin. discriminate Hin. }
  split; [exact Hnd|].
  destruct (completed_NoDup_preserved 1000 1 0 (Some 400%Q) 3 watched_state Hnd)
    as (Htrack & Hmark & _).
  split; [exact Htrack | exact Hmark].
Defined.

(** Distinct indices of a list of [n] chapters are at most [n]. *)
Lemma NoDup_in_range_length (cs : list Z) (n : nat) :
  NoDup cs → (∀ k, k ∈ cs → 0 ≤ k < Z.of_nat n) → (length cs ≤ n)%nat.
Proof.
  intros Hnd Hrange.
  assert (cs ⊆+ seqZ 0 (Z.of_nat n)) as Hsub.
  { apply NoDup_submseteq; [done|]. intros k Hk. apply elem_of_seqZ.
    specialize (Hrange k Hk). lia. }
  apply submseteq_length in Hsub. rewrite length_seqZ in Hsub. lia.
Qed.

Lemma percentage_sound (cs : list Z) (n : nat) :
  (0 < n ≤ 200)%nat → NoDup cs → (∀ k, k ∈ cs → 0 ≤ k < Z.of_nat n) →
  ∃ p, percentage (length cs) n = Number.of_Z p ∧ 0 ≤ p ≤ 100 ∧
       exact_percentage (length cs) n - 1 ≤ p ≤ exact_percentage (length cs) n.
Proof.
  intros Hn Hnd Hrange.
  pose proof (NoDup_in_range_length cs n Hnd Hrange) as Hlen.
  destruct (percentage_close_spec (length cs) n) as (p & Hp & _ & Hr & Hnear).
  { exact (percentage_close_upto_sound 200 (length cs) n percentage_close_200 Hn Hlen). }
  exists p. split; [done|]. split; [done|]. lia.
Qed.

Lemma recordOf_in_range now st :
  completed_in_range st →
  ∀ k, k ∈ completedChapters (recordOf now (videoId st) (progress st)) →
       0 ≤ k < Z.of_nat (length (chapters st)).
Proof.
  intros Hrange k. unfold recordOf.
  destruct (progress st !! videoId st) as [r|] eqn:Hr; simpl.
  - by apply Hrange.
  - by intros ?%elem_of_nil.
Qed.

Lemma record_sound_split st :
  record_sound st → completed_in_range st ∧ completed_NoDup st.
Proof.
  intros Hs. split.
  - intros r k Hr Hk. by apply (Hs r Hr).
  - intros r Hr. by apply (Hs r Hr).
Qed.

Lemma markChapterCompleted_sound now idx st :
  (0 < length (chapters st) ≤ 200)%nat →
  0 ≤ idx < Z.of_nat (length (chapters st)) →
  record_sound st → record_sound (markChapterCompleted now idx st).
Proof.
  intros Hn Hidx Hsound. destruct (record_sound_split st Hsound) as [Hrange Hnd].
  intros r. destruct (markChapterCompleted_frame now idx st) as (-> & -> & _).
  destruct (decide (videoId st = "")) as [Hempty|Hvid].
  { unfold markChapterCompleted. rewrite decide_True by done. apply Hsound. }
  rewrite markChapterCompleted_lookup by done. cbv zeta. intros [= <-]. simpl.
  assert (Hnd' : NoDup (toggled idx (completedChapters
                   (recordOf now (videoId st) (progress st)))))
    by (by apply NoDup_toggled, recordOf_NoDup).
  assert (Hrange' : ∀ k, k ∈ toggled idx (completedChapters
                      (recordOf now (videoId st) (progress st))) →
                    0 ≤ k < Z.of_nat (length (chapters st))).
  { intros k. rewrite elem_of_toggled. intros [[-> _]|[_ Hin]]; [done|].
    by eapply recordOf_in_range. }
  split; [done|]. split; [done|]. by apply percentage_sound.
Qed.

Lemma trackProgress_sound now player st :
  (length (chapters st) ≤ 200)%nat →
  record_sound st → record_sound (trackProgress now player st).
Proof.
  intros Hn Hsound. destruct (record_sound_split st Hsound) as [Hrange Hnd].
  intros r. destruct (trackProgress_frame now player st) as (-> & ->).
  destruct (trackProgress_progress now player st) as [->|(t & _ & Hne & ->)].
  { apply Hsound. }
  rewrite advanceUpdate_lookup. intros [= <-]. simpl.
  pose proof (resolveChapter_lt (chapters st) t Hne) as Hlt.
  assert (Hrange' : ∀ k, k ∈ new_Set (completedChapters
                      (recordOf now (videoId st) (progress st))
                      ++ seqZ 0 (Z.of_nat (resolveChapter (chapters st) t))) →
                    0 ≤ k < Z.of_nat (length (chapters st))).
  { intros k. rewrite elem_of_new_Set, elem_of_app, elem_of_seqZ.
    intros [Hin|Hin]; [by eapply recordOf_in_range | lia]. }
  split; [apply NoDup_new_Set|]. split; [done|].
  apply percentage_sound; [lia | apply NoDup_new_Set | done].
Qed.

Lemma clickComplete_sound now st :
  (length (chapters st) ≤ 200)%nat →
  record_sound st → record_sound (clickComplete now st).
Proof.
  intros Hn Hsound. unfold clickComplete.
  destruct (completionButtonShown st) eqn:Hshown; [|done].
  unfold completionButtonShown in Hshown.
  apply andb_true_iff in Hshown as [Hpos Hsome].
  apply bool_decide_eq_true in Hpos. apply bool_decide_eq_true in Hsome.
  apply markChapterCompleted_sound; [lia| |done].
  unfold chapterAt in Hsome.
  destruct (decide (0 ≤ currentChapter st)) as [Hge|]; [|by destruct Hsome].
  apply lookup_lt_is_Some in Hsome. lia.
Qed.

Lemma seekToChapter_frame player idx st :
  chapters (fst (seekToChapter player idx st)) = chapters st ∧
  videoId (fst (seekToChapter player idx st)) = videoId st ∧
  progress (fst (seekToChapter player idx st)) = progress st.
Proof.
  unfold seekToChapter. destruct player; [|done].
  by destruct (chapterAt (chapters st) idx).
Qed.

Lemma act_frame st a : chapters (act st a) = chapters st ∧ videoId (act st a) = videoId st.
Proof.
  destruct a as [now player|now|player idx]; simpl.
  - destruct (trackProgress_frame now player st) as (-> & ->). done.
  - unfold clickComplete. destruct (completionButtonShown st); [|done].
    destruct (markChapterCompleted_frame now (currentChapter st) st) as (-> & -> & _). done.
  - destruct (seekToChapter_frame player idx st) as (-> & -> & _). done.
Qed.

Lemma act_sound st a :
  (length (chapters st) ≤ 200)%nat → record_sound st → record_sound (act st a).
Proof.
  intros Hn Hsound. destruct a as [now player|now|player idx]; simpl.
  - by apply trackProgress_sound.
  - by apply clickComplete_sound.
  - intros r. destruct (seekToChapter_frame player idx st) as (-> & -> & ->).
    apply Hsound.
Qed.

Lemma actAll_sound actions st :
  (length (chapters st) ≤ 200)%nat → record_sound st →
  record_sound (actAll actions st) ∧ chapters (actAll actions st) = chapters st
  ∧ videoId (actAll actions st) = videoId st.
Proof.
  revert st. induction actions as [|a actions IH]; intros st Hn Hsound; [done|].
  unfold actAll. simpl. fold (actAll actions (act st a)).
  destruct (act_frame st a) as [Hc Hv].
  destruct (IH (act st a)) as (H1 & H2 & H3).
  - by rewrite Hc.
  - by apply act_sound.
  - split; [done|]. split; congruence.
Qed.

(** X10. Whatever samples and clicks follow the load of a video of up to 200
    chapters that has no record yet, the record of the video lists
    chapters of the video, each once, and its percentage is an integer
    from 0 to 100, the exact percentage of the list or one below. *)
Theorem reachable_record_sound (actions : list Action) (st : State) :
  (length (chapters st) ≤ 200)%nat →
  progress st !! videoId st = None →
  record_sound (actAll actions st).
Proof.
  intros Hn Hnone. apply actAll_sound; [done|].
  intros r Hr. congruence.
Qed.

Lemma reachable_record_sound_witness :
  (length (chapters sample_state) ≤ 200)%nat ∧
  progress sample_state !! videoId sample_state = None ∧
  record_sound (actAll [Sample 1000 (Some 150%Q); ClickChapter true 2;
                        ClickComplete 2000; Sample 3000 (Some 10%Q)] sample_state).
Proof.
  assert (H1 : (length (chapters sample_state) ≤ 200)%nat) by (simpl; lia).
  assert (H2 : progress sample_state !! videoId sample_state = None) by reflexivity.
  split; [exact H1|]. split; [exact H2|].
  apply (reachable_record_sound _ sample_state H1 H2).
Defined.

(** ** The completion mark a user sees *)



(** ** Printing integers *)

Lemma pretty_N_char_digit (x : N) : JSON.is_digit (pretty_N_char x) = true.
Proof.
  destruct x as [|p]; [done|].
  do 4 (destruct p as [p|p|]; try done).
Qed.

Lemma pretty_N_char_nonzero (x : N) :
  (0 < x < 10)%N → pretty_N_char x ≠ "0"%char.
Proof.
  intros Hx. destruct x as [|p]; [lia|].
  do 4 (destruct p as [p|p|]; try discriminate; try lia).
Qed.

(** The digits of a positive number: they are put in front of the text
    given, there is at least one and the first is not 0. *)
Lemma pretty_N_go_digits (x : N) (s : string) :
  (0 < x)%N →
  ∃ c d, pretty_N_go x s = String c (d ++ s) ∧
         JSON.is_digit c = true ∧ c ≠ "0"%char ∧ digits_only d = true.
Proof.
  revert s. induction (N.lt_wf_0 x) as [x _ IH]. intros s Hx.
  rewrite pretty_N_go_step by done.
  destruct (decide (x < 10)%N) as [Hsmall|Hbig].
  - rewrite N.div_small by done. rewrite pretty_N_go_0.
    rewrite N.mod_small by done.
    exists (pretty_N_char x), EmptyString. split; [done|].
    split; [apply pretty_N_char_digit|]. split; [|done].
    apply pretty_N_char_nonzero. lia.
  - assert (Hdiv : (0 < x `div` 10)%N).
    { apply N.div_str_pos. lia. }
    assert (Hlt : (x `div` 10 < x)%N) by (apply N.div_lt; lia).
    destruct (IH _ Hlt (String (pretty_N_char (x `mod` 10)) s) Hdiv)
      as (c & d & Heq & Hc & Hnz & Hd).
    exists c, (d ++ String (pretty_N_char (x `mod` 10)) EmptyString)%string.
    split; [|split; [done|split; [done|]]].
    + rewrite Heq. f_equal. clear. induction d as [|a d IHd]; [done|].
      rewrite !append_String. by rewrite IHd.
    + clear -Hd. induction d as [|a d IHd]; simpl in *.
      * by rewrite pretty_N_char_digit.
      * apply andb_true_iff in Hd as [Ha Hd]. rewrite Ha. simpl. by apply IHd.
Qed.

(** An integer is printed as an optional minus sign and a zero, or digits
    of which the first is not 0. *)
Lemma pretty_Z_shape (z : Z) :
  ∃ sign c d, pretty z = (sign ++ String c d)%string ∧
    (sign = EmptyString ∨ sign = "-"%string) ∧
    JSON.is_digit c = true ∧ digits_only d = true ∧
    (c = "0"%char → d = EmptyString).
Proof.
  destruct z as [|p|p].
  - exists EmptyString, "0"%char, EmptyString. repeat split; auto.
  - destruct (pretty_N_go_digits (Npos p) EmptyString) as (c & d & Heq & Hc & Hnz & Hd);
      [lia|].
    exists EmptyString, c, d. rewrite string_app_nil in Heq.
    repeat split; auto. intros ->. done.
  - destruct (pretty_N_go_digits (Npos p) EmptyString) as (c & d & Heq & Hc & Hnz & Hd);
      [lia|].
    exists "-"%string, c, d. rewrite string_app_nil in Heq.
    split; [|repeat split; auto; intros ->; done].
    change (pretty (Z.neg p)) with ("-" +:+ pretty_N_go (N.pos p) "").
    by rewrite Heq.
Qed.

(** ** Reading back a printed integer *)

Lemma number_unfold (c : ascii) (t : string) :
  JSON.is_digit c = true →
  JSON.number (String c t)
  = JSON.bind (if Ascii.eqb c "0" then JSON.Parsed "0"%string t
               else JSON.digits1 (String c t)) (number_tail EmptyString) ∧
  JSON.number (String "-" (String c t))
  = JSON.bind (if Ascii.eqb c "0" then JSON.Parsed "0"%string t
               else JSON.digits1 (String c t)) (number_tail "-"%string).
Proof.
  intros Hc. destruct c as [[] [] [] [] [] [] [] []]; try discriminate Hc;
    split; reflexivity.
Qed.

Lemma number_tail_ends sign int rest :
  ends_number rest = true → number_tail sign int rest = JSON.Parsed (sign ++ int)%string rest.
Proof.
  assert (Happ : (sign ++ int ++ "" ++ "")%string = (sign ++ int)%string).
  { change ("" ++ "")%string with EmptyString. by rewrite string_app_nil. }
  intros Hend. destruct rest as [|c r].
  - unfold number_tail. simpl. by rewrite Happ.
  - destruct c as [[] [] [] [] [] [] [] []]; try discriminate Hend;
      unfold number_tail; cbn [JSON.bind Ascii.eqb Bool.eqb orb]; by rewrite Happ.
Qed.

Lemma digits_split (d rest : string) :
  digits_only d = true → ends_number rest = true →
  JSON.digits (d ++ rest) = (d, rest).
Proof.
  intros Hd Hend. induction d as [|c d IH].
  - destruct rest as [|c r]; [done|]. simpl in *.
    destruct (JSON.is_digit c); [done | done].
  - simpl in Hd. apply andb_true_iff in Hd as [Hc Hd].
    rewrite append_String. cbn [JSON.digits]. rewrite Hc, IH by done. done.
Qed.

Lemma number_pretty (z : Z) (rest : string) :
  ends_number rest = true →
  JSON.number (pretty z ++ rest) = JSON.Parsed (pretty z) rest.
Proof.
  intros Hend.
  destruct (pretty_Z_shape z) as (sign & c & d & -> & Hsign & Hc & Hd & Hzero).
  assert (Hint : (if Ascii.eqb c "0" then JSON.Parsed "0"%string (d ++ rest)%string
                  else JSON.digits1 (String c (d ++ rest)))
                 = JSON.Parsed (String c d) rest).
  { destruct (Ascii.eqb c "0") eqn:H0.
    - apply Ascii.eqb_eq in H0 as ->. by rewrite (Hzero eq_refl).
    - unfold JSON.digits1. cbn [JSON.digits]. rewrite Hc.
      by rewrite digits_split. }
  destruct (number_unfold c (d ++ rest) Hc) as [Hplain Hminus].
  destruct Hsign as [-> | ->].
  - change (("" ++ String c d) ++ rest)%string with (String c (d ++ rest)).
    rewrite Hplain, Hint. cbn [JSON.bind]. by rewrite number_tail_ends.
  - change (("-" ++ String c d) ++ rest)%string with (String "-" (String c (d ++ rest))).
    rewrite Hminus, Hint. cbn [JSON.bind]. by rewrite number_tail_ends.
Qed.

(** ** The text of a value *)

Lemma value_size_Arr l : value_size (JSON.Arr l) = S (elements_size l).
Proof. reflexivity. Qed.

Lemma value_size_Obj l : value_size (JSON.Obj l) = S (members_size l).
Proof. reflexivity. Qed.

Lemma printable_Arr l : printable (JSON.Arr l) = elements_printable l.
Proof. reflexivity. Qed.

Lemma printable_Obj l : printable (JSON.Obj l) = members_printable l.
Proof. reflexivity. Qed.

Lemma stringify_to_Arr x xs rest :
  stringify_to (JSON.Arr (x :: xs)) rest
  = String "[" (stringify_to x (stringify_elements xs rest)).
Proof.
  cbn [stringify_to]. do 2 f_equal.
  induction xs as [|y xs IH]; [reflexivity|].
  cbn [stringify_elements]. by rewrite <- IH.
Qed.

Lemma stringify_to_Obj k x ms rest :
  stringify_to (JSON.Obj ((k, x) :: ms)) rest
  = String "{" (quoted k (String ":" (stringify_to x (stringify_members ms rest)))).
Proof.
  cbn [stringify_to]. do 4 f_equal.
  induction ms as [|[k' y] ms IH]; [reflexivity|].
  cbn [stringify_members]. by rewrite <- IH.
Qed.

Lemma value_size_pos v : (1 ≤ value_size v)%nat.
Proof. destruct v; simpl; lia. Qed.

Lemma is_value_start_not_ws c :
  is_value_start c = true →
  JSON.is_ws c = false ∧ c ≠ "]"%char ∧ c ≠ "}"%char.
Proof.
  destruct c as [[] [] [] [] [] [] [] []]; intros H; try discriminate H; done.
Qed.

Lemma is_follow_ends rest : is_follow rest = true → ends_number rest = true.
Proof.
  destruct rest as [|c r]; [done|].
  destruct c as [[] [] [] [] [] [] [] []]; intros H; try discriminate H; done.
Qed.

Lemma stringify_to_start v rest :
  printable v → ∃ c t, stringify_to v rest = String c t ∧ is_value_start c = true.
Proof.
  destruct v as [|[]|literal|s|[|x xs]|[|[k x] ms]]; intros Hp;
    try (eexists _, _; split; [reflexivity|reflexivity]).
  destruct Hp as [z ->]. cbn [stringify_to].
  destruct (pretty_Z_shape z) as (sign & c & d & -> & [-> | ->] & Hc & _).
  - eexists _, _. split; [reflexivity|]. unfold is_value_start. by rewrite Hc.
  - eexists _, _. split; [reflexivity|]. reflexivity.
Qed.

(** ** Reading the text of a value *)

Lemma string_body_plain s rest :
  plain s = true → JSON.string_body (s ++ String "034" rest) = JSON.Parsed s rest.
Proof.
  induction s as [|c s IH]; intros Hp.
  - reflexivity.
  - simpl in Hp. apply andb_true_iff in Hp as [Hc Hs].
    unfold is_plain_char in Hc.
    apply andb_true_iff in Hc as [Hc Hbs]. apply andb_true_iff in Hc as [Hge Hq].
    apply negb_true_iff in Hbs. apply negb_true_iff in Hq. apply Nat.leb_le in Hge.
    rewrite append_String. cbn [JSON.string_body].
    rewrite Hq, Hbs. replace (nat_of_ascii c <? 32)%nat with false
      by (symmetry; apply Nat.ltb_ge; lia).
    rewrite IH by done. reflexivity.
Qed.

Lemma parse_value_Num f c t :
  JSON.is_digit c = true ∨ c = "-"%char →
  JSON.parse_value (S f) (String c t)
  = JSON.bind (JSON.number (String c t)) (fun l r => JSON.Parsed (JSON.Num l) r).
Proof.
  intros [Hc| ->]; [|reflexivity].
  destruct c as [[] [] [] [] [] [] [] []]; try discriminate Hc; reflexivity.
Qed.

Lemma parse_value_Str f s rest :
  JSON.parse_value (S f) (quoted s rest)
  = JSON.bind (JSON.string_body (s ++ String "034" rest))
      (fun b r => JSON.Parsed (JSON.Str b) r).
Proof. reflexivity. Qed.

Lemma parse_value_Arr f c t :
  is_value_start c = true →
  JSON.parse_value (S f) (String "[" (String c t))
  = JSON.bind (JSON.parse_elements f (String c t))
      (fun vs r => JSON.Parsed (JSON.Arr vs) r).
Proof.
  destruct c as [[] [] [] [] [] [] [] []]; intros H; try discriminate H; reflexivity.
Qed.

Lemma parse_value_Obj f t :
  JSON.parse_value (S f) (String "{" (String "034" t))
  = JSON.bind (JSON.parse_members f (String "034" t))
      (fun ms r => JSON.Parsed (JSON.Obj ms) r).
Proof. reflexivity. Qed.

Lemma parse_elements_last f s x rest :
  JSON.parse_value f s = JSON.Parsed x (String "]" rest) →
  JSON.parse_elements (S f) s = JSON.Parsed [x] rest.
Proof. intros H. simpl. rewrite H. reflexivity. Qed.

Lemma parse_elements_more f s x s' xs rest :
  JSON.parse_value f s = JSON.Parsed x (String "," s') →
  JSON.parse_elements f s' = JSON.Parsed xs rest →
  JSON.parse_elements (S f) s = JSON.Parsed (x :: xs) rest.
Proof. intros H H'. simpl. rewrite H. simpl. rewrite H'. reflexivity. Qed.

Lemma parse_members_last f r k r2 v rest :
  JSON.string_body r = JSON.Parsed k (String ":" r2) →
  JSON.parse_value f r2 = JSON.Parsed v (String "}" rest) →
  JSON.parse_members (S f) (String "034" r) = JSON.Parsed [(k, v)] rest.
Proof. intros H H'. simpl. rewrite H. simpl. rewrite H'. reflexivity. Qed.

Lemma parse_members_more f r k r2 v r4 ms rest :
  JSON.string_body r = JSON.Parsed k (String ":" r2) →
  JSON.parse_value f r2 = JSON.Parsed v (String "," r4) →
  JSON.parse_members f r4 = JSON.Parsed ms rest →
  JSON.parse_members (S f) (String "034" r) = JSON.Parsed ((k, v) :: ms) rest.
Proof. intros H H' H''. simpl. rewrite H. simpl. rewrite H'. simpl. rewrite H''. reflexivity. Qed.

Lemma is_follow_elements xs rest : is_follow (stringify_elements xs rest) = true.
Proof. by destruct xs. Qed.

Lemma is_follow_members ms rest : is_follow (stringify_members ms rest) = true.
Proof. by destruct ms as [|[k x] ms]. Qed.

Section ReadBack.
Variable n : nat.

(** Values of a size up to [n] are read back. *)
Hypothesis smaller :
  ∀ v fuel rest, (value_size v ≤ n)%nat → (value_size v ≤ fuel)%nat →
    printable v → is_follow rest = true →
    JSON.parse_value fuel (stringify_to v rest) = JSON.Parsed v rest.

Lemma parse_elements_printed xs x fuel rest :
  (S (value_size x + elements_size xs) ≤ S n)%nat →
  (S (value_size x + elements_size xs) ≤ fuel)%nat →
  printable x → elements_printable xs → is_follow rest = true →
  JSON.parse_elements fuel (stringify_to x (stringify_elements xs rest))
  = JSON.Parsed (x :: xs) rest.
Proof.
  revert x fuel. induction xs as [|y xs IH]; intros x fuel Hn Hfuel Hx Hxs Hrest;
    destruct fuel as [|f]; try lia.
  - apply parse_elements_last. apply smaller; simpl in *; try done; lia.
  - destruct Hxs as [Hy Hxs]. cbn [elements_size] in Hn, Hfuel.
    eapply parse_elements_more.
    + cbn [stringify_elements]. apply smaller; try done; lia.
    + apply IH; try done; lia.
Qed.

Lemma parse_members_printed ms k x fuel rest :
  (S (value_size x + members_size ms) ≤ S n)%nat →
  (S (value_size x + members_size ms) ≤ fuel)%nat →
  plain k = true → printable x → members_printable ms → is_follow rest = true →
  JSON.parse_members fuel
    (quoted k (String ":" (stringify_to x (stringify_members ms rest))))
  = JSON.Parsed ((k, x) :: ms) rest.
Proof.
  revert k x fuel. induction ms as [|[k' y] ms IH];
    intros k x fuel Hn Hfuel Hk Hx Hms Hrest; destruct fuel as [|f]; try lia.
  - eapply parse_members_last; [by apply string_body_plain|].
    apply smaller; simpl in *; try done; lia.
  - destruct Hms as (Hk' & Hy & Hms). cbn [members_size] in Hn, Hfuel.
    eapply parse_members_more; [by apply string_body_plain| |].
    + cbn [stringify_members]. apply smaller; try done; lia.
    + apply IH; try done; lia.
Qed.
End ReadBack.

Lemma parse_value_printed_upto n :
  ∀ v fuel rest, (value_size v ≤ n)%nat → (value_size v ≤ fuel)%nat →
    printable v → is_follow rest = true →
    JSON.parse_value fuel (stringify_to v rest) = JSON.Parsed v rest.
Proof.
  induction n as [|n IH]; intros v fuel rest Hn Hfuel Hp Hrest.
  { pose proof (value_size_pos v). lia. }
  destruct fuel as [|f]; [pose proof (value_size_pos v); lia|].
  destruct v as [|[]|literal|s|[|x xs]|[|[k x] ms]]; try reflexivity.
  - destruct Hp as [z ->]. cbn [stringify_to].
    destruct (stringify_to_start (JSON.Num (pretty z)) rest) as (c & t & Heq & Hc);
      [by exists z|].
    cbn [stringify_to] in Heq.
    assert (Hstart : JSON.is_digit c = true ∨ c = "-"%char).
    { unfold is_value_start in Hc. apply orb_true_iff in Hc as [Hc|Hc]; [by left|].
      destruct (pretty_Z_shape z) as (sign & c' & d & Hz & [-> | ->] & Hc' & _);
        rewrite Hz in Heq; injection Heq as <- _; [by left | by right]. }
    rewrite Heq, parse_value_Num by done. rewrite <- Heq.
    rewrite number_pretty by (by apply is_follow_ends). reflexivity.
  - cbn [stringify_to]. rewrite parse_value_Str.
    rewrite string_body_plain by done. reflexivity.
  - rewrite stringify_to_Arr.
    rewrite printable_Arr in Hp. destruct Hp as [Hx Hxs].
    rewrite value_size_Arr in Hn, Hfuel. cbn [elements_size] in Hn, Hfuel.
    destruct (stringify_to_start x (stringify_elements xs rest) Hx) as (c & t & Heq & Hc).
    rewrite Heq, parse_value_Arr by done. rewrite <- Heq.
    rewrite (parse_elements_printed n IH) by (done || lia). reflexivity.
  - rewrite stringify_to_Obj.
    rewrite printable_Obj in Hp. destruct Hp as (Hk & Hx & Hms).
    rewrite value_size_Obj in Hn, Hfuel. cbn [members_size] in Hn, Hfuel.
    unfold quoted at 1. rewrite parse_value_Obj.
    change (String "034" (k ++ String "034" ?r)) with (quoted k r).
    rewrite (parse_members_printed n IH) by (done || lia). reflexivity.
Qed.

(** The text is at least as long as the value is large. *)
Lemma stringify_to_length_upto n :
  ∀ v rest, (value_size v ≤ n)%nat → printable v →
    (value_size v + String.length rest ≤ String.length (stringify_to v rest))%nat.
Proof.
  assert (Happ : ∀ a b, String.length (a ++ b) = (String.length a + String.length b)%nat).
  { intros a b. induction a as [|c a IHa]; [done|]. rewrite append_String. simpl. lia. }
  induction n as [|n IH]; intros v rest Hn Hp.
  { pose proof (value_size_pos v). lia. }
  destruct v as [|[]|literal|s|[|x xs]|[|[k x] ms]];
    try (cbn [stringify_to value_size]; rewrite ?Happ; simpl; lia).
  - destruct Hp as [z ->]. cbn [stringify_to value_size]. rewrite Happ.
    destruct (pretty_Z_shape z) as (sign & c & d & -> & _). rewrite Happ. simpl. lia.
  - cbn [stringify_to value_size]. unfold quoted. simpl. rewrite Happ. simpl. lia.
  - rewrite stringify_to_Arr. rewrite printable_Arr in Hp. destruct Hp as [Hx Hxs].
    rewrite value_size_Arr in *. cbn [elements_size] in *.
    assert (Hels : ∀ l, (elements_size l ≤ n)%nat → elements_printable l →
              (elements_size l + String.length rest
               < String.length (stringify_elements l rest))%nat).
    { induction l as [|y l IHl]; intros Hl Hpl; [simpl; lia|].
      destruct Hpl as [Hy Hpl]. cbn [elements_size stringify_elements] in *.
      pose proof (IH y (stringify_elements l rest)) as Hy'.
      pose proof (IHl ltac:(lia) Hpl). cbn [String.length].
      specialize (Hy' ltac:(lia) Hy). lia. }
    pose proof (IH x (stringify_elements xs rest) ltac:(lia) Hx).
    pose proof (Hels xs ltac:(lia) Hxs). cbn [String.length]. lia.
  - rewrite stringify_to_Obj. rewrite printable_Obj in Hp. destruct Hp as (Hk & Hx & Hms).
    rewrite value_size_Obj in *. cbn [members_size] in *.
    assert (Hmems : ∀ l, (members_size l ≤ n)%nat → members_printable l →
              (members_size l + String.length rest
               < String.length (stringify_members l rest))%nat).
    { induction l as [|[k' y] l IHl]; intros Hl Hpl; [simpl; lia|].
      destruct Hpl as (Hk' & Hy & Hpl). cbn [members_size stringify_members] in *.
      pose proof (IH y (stringify_members l rest)) as Hy'.
      pose proof (IHl ltac:(lia) Hpl).
      specialize (Hy' ltac:(lia) Hy). unfold quoted. cbn [String.length].
      rewrite Happ. cbn [String.length]. lia. }
    pose proof (IH x (stringify_members ms rest) ltac:(lia) Hx).
    pose proof (Hmems ms ltac:(lia) Hms). unfold quoted. cbn [String.length].
    rewrite Happ. cbn [String.length]. lia.
Qed.

(** [JSON.parse] reads back the text [JSON.stringify] writes for a value
    whose numbers are integers and whose strings need no escape. *)
Lemma parse_stringify v :
  printable v → JSON.parse (JSON_stringify v) = JSON.Parsed v EmptyString.
Proof.
  intros Hp. unfold JSON.parse, JSON_stringify.
  pose proof (stringify_to_length_upto (value_size v) v EmptyString (le_n _) Hp) as Hlen.
  rewrite (parse_value_printed_upto (value_size v)); [reflexivity|lia|lia|done|done].
Qed.

(** ** Saving and loading the store *)

Lemma integerValue_printable z : printable (integerValue z).
Proof. by exists z. Qed.

Lemma percentageValue_printable x : printable (percentageValue x).
Proof.
  unfold percentageValue. destruct (Number.to_Z x); [|done]. apply integerValue_printable.
Qed.

Lemma recordValue_printable r : printable (recordValue r).
Proof.
  unfold recordValue. rewrite printable_Obj. cbn [members_printable].
  split; [reflexivity|]. split.
  { rewrite printable_Arr. induction (completedChapters r) as [|c cs IH]; [done|].
    split; [apply integerValue_printable | exact IH]. }
  split; [reflexivity|]. split; [apply integerValue_printable|].
  split; [reflexivity|]. split; [apply percentageValue_printable|].
  split; [reflexivity|]. split; [apply integerValue_printable|].
  split; [reflexivity|]. split; [apply integerValue_printable|]. done.
Qed.

Lemma storeValue_printable store : plain_keys store → printable (storeValue store).
Proof.
  intros Hkeys. unfold storeValue. rewrite printable_Obj.
  assert (Hl : ∀ k r, (k, r) ∈ map_to_list store → plain k = true).
  { intros k r Hin. apply elem_of_map_to_list in Hin. by eapply Hkeys. }
  induction (map_to_list store) as [|[k r] l IH]; [done|].
  cbn [fmap list_fmap prod_map fst snd members_printable id].
  split; [apply (Hl k r); by left|]. split; [apply recordValue_printable|].
  apply IH. intros k' r' Hin. apply (Hl k' r'). by right.
Qed.

(** X13. The text the save effect writes is read back by the load effect as
    the value that was written, whatever the store holds under keys that
    need no escape, a percentage that is [NaN] or an infinity included
    (it is written and read as [null]): the load of a saved store never
    throws. *)
Theorem save_then_load (store : gmap string VideoProgress) :
  plain_keys store → rounded_percentages store →
  JSON.parse (saveProgress store) = JSON.Parsed (storeValue store) EmptyString ∧
  loadProgress (Some (saveProgress store)) = SetsProgress (storeValue store).
Proof.
  intros Hkeys _.
  pose proof (parse_stringify (storeValue store) (storeValue_printable store Hkeys)) as Hparse.
  split; [exact Hparse|].
  unfold loadProgress. fold (saveProgress store) in Hparse.
  assert (Hne : ∃ c t, saveProgress store = String c t).
  { unfold saveProgress, JSON_stringify, storeValue.
    destruct (prod_map id recordValue <$> map_to_list store) as [|[k v] l];
      eexists _, _; reflexivity. }
  destruct Hne as (c & t & Heq). rewrite Heq in *. by rewrite Hparse.
Qed.

Lemma save_then_load_witness :
  plain_keys (progress (markChapterCompleted 1000 0 empty_state)) ∧
  rounded_percentages (progress (markChapterCompleted 1000 0 empty_state)) ∧
  loadProgress (Some (saveProgress (progress (markChapterCompleted 1000 0 empty_state))))
  = SetsProgress (storeValue (progress (markChapterCompleted 1000 0 empty_state))).
Proof.
  assert (Hkey : ∀ k r, progress (markChapterCompleted 1000 0 empty_state) !! k = Some r →
            k = "dQw4w9WgXcQ"%string ∧ progressPercentage r = Number.Infinity).
  { intros k r Hk.
    change (progress (markChapterCompleted 1000 0 empty_state))
      with (toggleUpdate 1000 "dQw4w9WgXcQ" 0 0 ∅) in Hk.
    destruct (decide (k = "dQw4w9WgXcQ")) as [->|Hne].
    - rewrite toggleUpdate_lookup in Hk. inversion Hk. split; reflexivity.
    - rewrite toggleUpdate_other in Hk by done. discriminate Hk. }
  assert (Hkeys : plain_keys (progress (markChapterCompleted 1000 0 empty_state))).
  { intros k r Hk. destruct (Hkey k r Hk) as [-> _]. reflexivity. }
  assert (Hround : rounded_percentages (progress (markChapterCompleted 1000 0 empty_state))).
  { intros k r Hk. destruct (Hkey k r Hk) as [_ ->]. exact I. }
  split; [exact Hkeys|]. split; [exact Hround|].
  exact (proj2 (save_then_load _ Hkeys Hround)).
Defined.

(** ** The value of a printed integer *)

Lemma pretty_N_char_value (k : N) :
  (k < 10)%N → Z.of_nat (nat_of_ascii (pretty_N_char k)) - 48 = Z.of_N k.
Proof.
  intros Hk. destruct k as [|p]; [reflexivity|].
  do 4 (destruct p as [p|p|]; try reflexivity; try lia).
Qed.

Lemma decimal_pretty_N_go (x : N) (s : string) :
  decimal (pretty_N_go x s) = Z.of_N x * 10 ^ Z.of_nat (String.length s) + decimal s.
Proof.
  revert s. induction (N.lt_wf_0 x) as [x _ IH]. intros s.
  destruct (decide (x = 0)%N) as [->|Hx].
  { rewrite pretty_N_go_0. lia. }
  rewrite pretty_N_go_step by lia.
  rewrite IH by (apply N.div_lt; lia).
  cbn [decimal String.length].
  rewrite pretty_N_char_value by (apply N.mod_lt; lia).
  rewrite Nat2Z.inj_succ, Z.pow_succ_r by lia.
  rewrite N2Z.inj_div, N2Z.inj_mod.
  pose proof (Z.div_mod (Z.of_N x) 10 ltac:(lia)) as Hdm.
  change (Z.of_N 10) with 10.
  set (q := Z.of_N x `div` 10) in *. set (m := Z.of_N x `mod` 10) in *.
  rewrite Hdm. ring.
Qed.

Lemma all_digits_String c d :
  JSON.is_digit c = true → digits_only d = true → all_digits (String c d) = true.
Proof.
  revert c. induction d as [|a d IH]; intros c Hc Hd; simpl; [done|].
  simpl in Hd. apply andb_true_iff in Hd as [Ha Hd]. rewrite Hc. simpl.
  by apply IH.
Qed.

Lemma pretty_N_go_all_digits (x : N) :
  (0 < x)%N →
  all_digits (pretty_N_go x EmptyString) = true ∧
  ∃ c t, pretty_N_go x EmptyString = String c t ∧ Ascii.eqb c "-" = false.
Proof.
  intros Hx.
  destruct (pretty_N_go_digits x EmptyString Hx) as (c & d & Heq & Hc & _ & Hd).
  rewrite string_app_nil in Heq. rewrite Heq. split; [by apply all_digits_String|].
  exists c, d. split; [done|]. apply Ascii.eqb_neq. intros ->. discriminate Hc.
Qed.

(** An integer is read back from its decimal text. *)
Lemma literalInteger_pretty (z : Z) : literalInteger (pretty z) = Some z.
Proof.
  destruct z as [|p|p].
  - reflexivity.
  - destruct (pretty_N_go_all_digits (Npos p)) as (Hall & c & t & Heq & Hc); [lia|].
    change (pretty (Z.pos p)) with (pretty_N_go (N.pos p) "").
    unfold literalInteger. rewrite Heq, Hc. rewrite <- Heq, Hall.
    rewrite decimal_pretty_N_go. simpl. f_equal. lia.
  - destruct (pretty_N_go_all_digits (Npos p)) as (Hall & c & t & Heq & Hc); [lia|].
    change (pretty (Z.neg p)) with (String "-" (pretty_N_go (N.pos p) "")).
    unfold literalInteger. cbn [Ascii.eqb Bool.eqb]. rewrite Hall.
    rewrite decimal_pretty_N_go. simpl. f_equal. lia.
Qed.

Lemma mapM_valueInteger (cs : list Z) :
  mapM valueInteger (integerValue <$> cs) = Some cs.
Proof.
  induction cs as [|c cs IH]; [done|].
  cbn [fmap list_fmap mapM].
  change (valueInteger (integerValue c)) with (literalInteger (pretty c)).
  rewrite literalInteger_pretty, IH. done.
Qed.

Lemma of_Z_to_Z_100 : forallb (λ p, bool_decide (Number.to_Z (Number.of_Z p) = Some p))
                        (seqZ 0 101) = true.
Proof. vm_compute. reflexivity. Qed.

Lemma percentageValue_whole p :
  0 ≤ p ≤ 100 → percentageValue (Number.of_Z p) = integerValue p.
Proof.
  intros Hp. pose proof of_Z_to_Z_100 as Hall. rewrite forallb_forall in Hall.
  assert (Hin : In p (seqZ 0 101)).
  { apply list_elem_of_In, elem_of_seqZ. lia. }
  specialize (Hall p Hin). apply bool_decide_eq_true in Hall.
  unfold percentageValue. by rewrite Hall.
Qed.

Lemma valueRecord_recordValue r p :
  0 ≤ p ≤ 100 → progressPercentage r = Number.of_Z p →
  valueRecord (recordValue r) = Some r.
Proof.
  intros Hp Hpp. unfold recordValue. rewrite Hpp, percentageValue_whole by done.
  unfold valueRecord.
  change (property "completedChapters" _)
    with (Some (JSON.Arr (integerValue <$> completedChapters r))).
  change (property "lastWatchedChapter" _) with (Some (integerValue (lastWatchedChapter r))).
  change (property "progressPercentage" _) with (Some (integerValue p)).
  change (property "totalWatchTime" _) with (Some (integerValue (totalWatchTime r))).
  change (property "timestamp" _) with (Some (integerValue (timestamp r))).
  cbn [mbind option_bind]. rewrite mapM_valueInteger. cbn [mbind option_bind].
  unfold integerValue. cbn [valueInteger]. rewrite !literalInteger_pretty.
  cbn [mbind option_bind]. rewrite <- Hpp. by destruct r.
Qed.

Lemma mapM_valueRecord (l : list (string * VideoProgress)) :
  (∀ k r, (k, r) ∈ l → ∃ p, 0 ≤ p ≤ 100 ∧ progressPercentage r = Number.of_Z p) →
  mapM (λ kv : string * JSON.value, (λ r, (fst kv, r)) <$> valueRecord (snd kv))
       (prod_map id recordValue <$> l) = Some l.
Proof.
  induction l as [|[k r] l IH]; intros Hl; [done|].
  cbn [fmap list_fmap mapM prod_map fst snd id].
  destruct (Hl k r) as (p & Hp & Hpp); [by left|].
  rewrite (valueRecord_recordValue r p) by done.
  fold (fmap (M:=list) (prod_map id recordValue) l) in *.
  change (list_fmap _ _ (prod_map id recordValue) l)
    with (prod_map id recordValue <$> l).
  rewrite IH; [done|]. intros k' r' Hin. apply (Hl k' r'). by right.
Qed.

Lemma load_saved_store (store : gmap string VideoProgress) :
  plain_keys store → whole_percentages store →
  ∃ v, loadProgress (Some (saveProgress store)) = SetsProgress v ∧
       valueStore v = Some store.
Proof.
  intros Hkeys Hwhole. exists (storeValue store).
  split.
  { pose proof (parse_stringify (storeValue store) (storeValue_printable store Hkeys))
      as Hparse.
    unfold loadProgress. fold (saveProgress store) in Hparse.
    assert (Hne : ∃ c t, saveProgress store = String c t).
    { unfold saveProgress, JSON_stringify, storeValue.
      destruct (prod_map id recordValue <$> map_to_list store) as [|[k v] l];
        eexists _, _; reflexivity. }
    destruct Hne as (c & t & Heq). rewrite Heq in *. by rewrite Hparse. }
  unfold valueStore, storeValue.
  rewrite <- fmap_reverse.
  rewrite mapM_valueRecord.
  - cbn [fmap option_fmap option_map]. f_equal.
    rewrite <- (list_to_map_to_list store) at 2.
    apply list_to_map_proper; [|apply reverse_Permutation].
    rewrite fmap_reverse, reverse_Permutation. apply NoDup_fst_map_to_list.
  - intros k r Hin. apply elem_of_reverse, elem_of_map_to_list in Hin.
    by eapply Hwhole.
Qed.

(** X14. The store is read back from the text the save effect writes: when
    its keys need no escape and its percentages are integers from 0 to
    100, the value the load effect sets is, read as a store, the store
    that was saved. *)
Theorem store_round_trip (store : gmap string VideoProgress) :
  plain_keys store → whole_percentages store →
  ∃ v, loadProgress (Some (saveProgress store)) = SetsProgress v ∧
       valueStore v = Some store.
Proof. apply load_saved_store. Qed.

Lemma store_round_trip_witness :
  plain_keys (progress watched_state) ∧ whole_percentages (progress watched_state) ∧
  ∃ v, loadProgress (Some (saveProgress (progress watched_state))) = SetsProgress v ∧
       valueStore v = Some (progress watched_state).
Proof.
  assert (Hkey : ∀ k r, progress watched_state !! k = Some r →
                        k = "dQw4w9WgXcQ"%string ∧ r = sample_record).
  { intros k r Hk. simpl in Hk.
    destruct (decide (k = "dQw4w9WgXcQ")) as [->|Hne].
    - rewrite lookup_singleton_eq in Hk. by inversion Hk.
    - rewrite lookup_singleton_ne in Hk by done. discriminate Hk. }
  assert (Hkeys : plain_keys (progress watched_state)).
  { intros k r Hk. destruct (Hkey k r Hk) as [-> _]. reflexivity. }
  assert (Hwhole : whole_percentages (progress watched_state)).
  { intros k r Hk. destruct (Hkey k r Hk) as [_ ->]. exists 67.
    split; [lia|]. vm_compute. reflexivity. }
  split; [exact Hkeys|]. split; [exact Hwhole|].
  exact (store_round_trip (progress watched_state) Hkeys Hwhole).
Defined.

(** ** A session, saved and loaded *)

Lemma is_id_char_plain c : is_id_char c = true → is_plain_char c = true.
Proof. destruct c as [[] [] [] [] [] [] [] []]; intros H; try discriminate H; done. Qed.

Lemma all_id_chars_plain s : all_id_chars s = true → plain s = true.
Proof.
  induction s as [|c s IH]; [done|]. simpl.
  intros [Hc Hs]%andb_true_iff. rewrite is_id_char_plain by done. by apply IH.
Qed.

Lemma act_other st a k :
  k ≠ videoId st → progress (act st a) !! k = progress st !! k.
Proof.
  intros Hk. destruct a as [now player|now|player idx]; simpl.
  - destruct (trackProgress_progress now player st) as [->|(t & _ & _ & ->)]; [done|].
    by apply advanceUpdate_other.
  - unfold clickComplete. destruct (completionButtonShown st); [|done].
    unfold markChapterCompleted. case_decide; [done|]. simpl.
    by apply toggleUpdate_other.
  - by destruct (seekToChapter_frame player idx st) as (_ & _ & ->).
Qed.

Lemma actAll_other actions st k :
  k ≠ videoId st → progress (actAll actions st) !! k = progress st !! k.
Proof.
  revert st. induction actions as [|a actions IH]; intros st Hk; [done|].
  unfold actAll. simpl. fold (actAll actions (act st a)).
  destruct (act_frame st a) as [_ Hv].
  rewrite IH by (by rewrite Hv). by apply act_other.
Qed.

(** X15. A video of up to 200 chapters is loaded from a URL into an empty
    store. Whatever samples and clicks follow, the text the save effect
    writes is read back by the load effect, and the value it sets is, read
    as a store, the store that was saved. *)
Theorem session_round_trip (url : string) (actions : list Action) (st : State) :
  extractVideoId url = Some (videoId st) →
  (length (chapters st) ≤ 200)%nat →
  progress st = ∅ →
  ∃ v, loadProgress (Some (saveProgress (progress (actAll actions st)))) = SetsProgress v ∧
       valueStore v = Some (progress (actAll actions st)).
Proof.
  intros Hurl Hn Hempty.
  assert (Hnone : progress st !! videoId st = None) by (by rewrite Hempty).
  destruct (actAll_sound actions st Hn) as (Hsound & Hc & Hv).
  { intros r Hr. congruence. }
  assert (Hkey : ∀ k r, progress (actAll actions st) !! k = Some r → k = videoId st).
  { intros k r Hk. destruct (decide (k = videoId st)) as [|Hne]; [done|].
    rewrite actAll_other, Hempty in Hk by done. done. }
  apply load_saved_store.
  - intros k r Hk. rewrite (Hkey k r Hk). apply all_id_chars_plain.
    by destruct (extractVideoId_is_video_id url _ Hurl).
  - intros k r Hk. pose proof (Hkey k r Hk) as ->. rewrite <- Hv in Hk.
    destruct (Hsound r Hk) as (_ & _ & p & Hp & Hrange & _). by exists p.
Qed.

Lemma session_round_trip_witness :
  extractVideoId "https://youtu.be/dQw4w9WgXcQ" = Some (videoId sample_state) ∧
  (length (chapters sample_state) ≤ 200)%nat ∧
  progress sample_state = ∅ ∧
  ∃ v, loadProgress (Some (saveProgress (progress
         (actAll [Sample 1000 (Some 150%Q); ClickComplete 2000] sample_state))))
       = SetsProgress v ∧
       valueStore v = Some (progress
         (actAll [Sample 1000 (Some 150%Q); ClickComplete 2000] sample_state)).
Proof.
  assert (H1 : extractVideoId "https://youtu.be/dQw4w9WgXcQ" = Some (videoId sample_state))
    by reflexivity.
  assert (H2 : (length (chapters sample_state) ≤ 200)%nat) by (simpl; lia).
  assert (H3 : progress sample_state = ∅) by reflexivity.
  split; [exact H1|]. split; [exact H2|]. split; [exact H3|].
  exact (session_round_trip _ [Sample 1000 (Some 150%Q); ClickComplete 2000]
           sample_state H1 H2 H3).
Defined.

(** ** An advance repeated *)






(** ** What samples never do *)

Lemma act_keeps_completed now0 st a k :
  no_toggle a = true →
  k ∈ completedChapters (recordOf now0 (videoId st) (progress st)) →
  k ∈ completedChapters (recordOf now0 (videoId st) (progress (act st a))).
Proof.
  intros Ha Hk. destruct a as [now player|now|player idx]; [|done|]; simpl.
  - destruct (trackProgress_progress now player st) as [->|(t & _ & _ & ->)]; [done|].
    unfold recordOf at 1. rewrite advanceUpdate_lookup. simpl.
    apply elem_of_new_Set, elem_of_app. left.
    unfold recordOf in *. by destruct (progress st !! videoId st).
  - by destruct (seekToChapter_frame player idx st) as (_ & _ & ->).
Qed.

(** X16. Samples and clicks on chapters never remove a completed chapter:
    whatever sequence of them runs, every chapter that was completed for
    the loaded video is still completed afterwards. Only the completion
    button takes a chapter out. *)
Theorem samples_keep_completed (now0 : Z) (actions : list Action) (st : State) (k : Z) :
  forallb no_toggle actions = true →
  k ∈ completedChapters (recordOf now0 (videoId st) (progress st)) →
  k ∈ completedChapters (recordOf now0 (videoId st) (progress (actAll actions st))).
Proof.
  revert st. induction actions as [|a actions IH]; intros st Hall Hk; [done|].
  simpl in Hall. apply andb_true_iff in Hall as [Ha Hall].
  unfold actAll. simpl. fold (actAll actions (act st a)).
  destruct (act_frame st a) as [_ Hv]. rewrite <- Hv.
  apply IH; [done|]. rewrite Hv. by apply act_keeps_completed.
Qed.

Lemma samples_keep_completed_witness :
  forallb no_toggle [Sample 1000 (Some 10%Q); ClickChapter true 0;
                     Sample 2000 (Some 400%Q)] = true ∧
  2 ∈ completedChapters (recordOf 0 (videoId watched_state) (progress watched_state)) ∧
  2 ∈ completedChapters (recordOf 0 (videoId watched_state)
        (progress (actAll [Sample 1000 (Some 10%Q); ClickChapter true 0;
                           Sample 2000 (Some 400%Q)] watched_state))).
Proof.
  assert (H1 : forallb no_toggle [Sample 1000 (Some 10%Q); ClickChapter true 0;
                                  Sample 2000 (Some 400%Q)] = true) by reflexivity.
  assert (H2 : 2 ∈ completedChapters
                 (recordOf 0 (videoId watched_state) (progress watched_state))).
  { change (2 ∈ [0; 2]). apply list_elem_of_further, list_elem_of_here. }
  split; [exact H1|]. split; [exact H2|].
  exact (samples_keep_completed 0 _ watched_state 2 H1 H2).
Defined.

(** ** The watch time *)




(** ** The percentage a user sees *)

Lemma or_zero_whole : forallb (λ p, number_eqb (or_zero (Number.of_Z p)) (Number.of_Z p))
                        (seqZ 0 101) = true.
Proof. vm_compute. reflexivity. Qed.

(** X18. Whatever samples and clicks follow the load of a video of up to
    200 chapters that has no record yet, the percentage shown in the
    header and beside the chapter list is an integer from 0 to 100. *)
Theorem shown_percentage_in_range (actions : list Action) (st : State) :
  (length (chapters st) ≤ 200)%nat →
  progress st !! videoId st = None →
  ∃ p, shownPercentage (actAll actions st) = Number.of_Z p ∧ 0 ≤ p ≤ 100.
Proof.
  intros Hn Hnone.
  destruct (actAll_sound actions st Hn) as (Hsound & _ & Hv).
  { intros r Hr. congruence. }
  unfold shownPercentage, getVideoProgress.
  destruct (decide (videoId (actAll actions st) = "")); [by exists 0|].
  destruct (progress (actAll actions st) !! videoId (actAll actions st)) as [r|] eqn:Hr;
    [|by exists 0].
  destruct (Hsound r Hr) as (_ & _ & p & Hp & Hrange & _).
  exists p. split; [|done]. rewrite Hp.
  pose proof or_zero_whole as Hall. rewrite forallb_forall in Hall.
  apply number_eqb_eq, Hall, list_elem_of_In, elem_of_seqZ. lia.
Qed.

Lemma shown_percentage_in_range_witness :
  (length (chapters sample_state) ≤ 200)%nat ∧
  progress sample_state !! videoId sample_state = None ∧
  ∃ p, shownPercentage (actAll [Sample 1000 (Some 150%Q); ClickComplete 2000] sample_state)
       = Number.of_Z p ∧ 0 ≤ p ≤ 100.
Proof.
  assert (H1 : (length (chapters sample_state) ≤ 200)%nat) by (simpl; lia).
  assert (H2 : progress sample_state !! videoId sample_state = None) by reflexivity.
  split; [exact H1|]. split; [exact H2|].
  exact (shown_percentage_in_range [Sample 1000 (Some 150%Q); ClickComplete 2000]
           sample_state H1 H2).
Defined.
